(** * SCOP calculator: a shallow embedding of [calculate_scop] (src/main.py)

    The Python function works on [int] and [float] values.  A Python [float]
    is an IEEE-754 binary64 number, embedded here as Rocq's primitive
    [float]; a Python [int] is an unbounded integer, embedded as [Z].
    Exceptions are results of an error monad.  [print] calls produce no
    value and are left out. *)

From Stdlib Require Import String ZArith List Bool Lia.
From Stdlib Require Import Floats.
Import ListNotations.

Local Open Scope Z_scope.

#[local] Set Warnings "-inexact-float".

(** ** Python numbers and exceptions *)

Module Py.

Inductive exc : Type :=
| ValueError
| ZeroDivisionError
| OverflowError
| IndexError.

Inductive result (A : Type) : Type :=
| Ok (a : A)
| Raise (e : exc).

Arguments Ok {A} a.
Arguments Raise {A} e.

Definition bind {A B : Type} (r : result A) (k : A -> result B) : result B :=
  match r with
  | Ok a => k a
  | Raise e => Raise e
  end.

Inductive num : Type :=
| Int (z : Z)
| Float (f : float).

(** [float(z)]: the nearest binary64 number, ties to even;
    "int too large to convert to float" when it rounds out of range. *)
Definition float_of_int (z : Z) : result float :=
  let f := SF2Prim (binary_normalize prec emax z 0 false) in
  if is_infinity f then Raise OverflowError else Ok f.

(** The float operand of a mixed binary operation. *)
Definition to_float (v : num) : result float :=
  match v with
  | Int z => float_of_int z
  | Float f => Ok f
  end.

(** [v ** 2].  On integers the square is exact.  On floats CPython calls the
    C library's [pow] and raises OverflowError when a finite base gives an
    infinite result; [pow(x, 2.0)] is taken to be the correctly rounded
    square. *)
Definition pow2 (v : num) : result num :=
  match v with
  | Int z => Ok (Int (z * z))
  | Float f =>
      let r := (f * f)%float in
      if is_infinity r && negb (is_infinity f)
      then Raise OverflowError
      else Ok (Float r)
  end.

(** [v * w]: exact on two integers, otherwise in binary64. *)
Definition mul (v w : num) : result num :=
  match v, w with
  | Int a, Int b => Ok (Int (a * b))
  | _, _ =>
      bind (to_float v) (fun a =>
      bind (to_float w) (fun b => Ok (Float (a * b)%float)))
  end.

(** [a * v], [v * a] and [a - v] for a float [a]: always a float. *)
Definition fmul (a : float) (v : num) : result float :=
  bind (to_float v) (fun b => Ok (a * b)%float).

Definition mulf (v : num) (a : float) : result float :=
  bind (to_float v) (fun b => Ok (b * a)%float).

Definition fsub (a : float) (v : num) : result float :=
  bind (to_float v) (fun b => Ok (a - b)%float).

(** [a / b] on floats: "float division by zero" for a zero divisor. *)
Definition fdiv (a b : float) : result float :=
  if is_zero b then Raise ZeroDivisionError else Ok (a / b)%float.

(** [v / b] for a float [b]. *)
Definition divf (v : num) (b : float) : result float :=
  bind (to_float v) (fun a => fdiv a b).

(** [zip(xs, ys, zs)] stops with the shortest argument. *)
Fixpoint zip3 {A B C : Type} (xs : list A) (ys : list B) (zs : list C)
  : list (A * B * C) :=
  match xs, ys, zs with
  | x :: xs', y :: ys', z :: zs' => (x, y, z) :: zip3 xs' ys' zs'
  | _, _, _ => []
  end.

(** [l[i]] with a non-negative index. *)
Definition index {A : Type} (l : list A) (i : nat) : result A :=
  match nth_error l i with
  | Some a => Ok a
  | None => Raise IndexError
  end.

End Py.

Import Py.

Declare Scope py_scope.
Delimit Scope py_scope with py.
Notation "x <- e ;; k" := (bind e (fun x => k))
  (at level 61, e at next level, right associativity) : py_scope.
Local Open Scope py_scope.

(** ** [calculate_scop] *)

Module Scop.

Local Open Scope float_scope.

(** Design parameters (lines 22-24). *)
Definition T_design : float := -7.2.
Definition T_room : float := 20.0.
Definition delta_T_max : float := T_room - T_design.

(** Coefficients of the design heating capacity (line 27). *)
Definition a1 : float := 0.009111.
Definition b1 : float := 5.736667.
Definition c1 : float := -0.073627.
Definition d1 : float := 4.822.
Definition e1 : float := 214.022667.

(** Lines 28-29. *)
Definition P_hmax_design (T_out_design : num) : result float :=
  T_design2 <- pow2 (Float T_design) ;;
  t1 <- fmul a1 T_design2 ;;
  T_out2 <- pow2 T_out_design ;;
  t3 <- fmul c1 T_out2 ;;
  t4 <- fmul d1 T_out_design ;;
  Ok (t1 + b1 * T_design + t3 + t4 + e1).

Inductive sizing_method : Type :=
| UnitCount   (* "机组数法" *)
| AreaIndex.  (* "面积法" *)

(** Lines 32-41: the heat-transfer coefficient K and the method used. *)
Definition heat_transfer_K (P : float) (n_units area q_H : option num)
  : result (float * sizing_method) :=
  match n_units with
  | Some n =>
      nP <- mulf n P ;;
      K <- fdiv nP delta_T_max ;;
      Ok (K, UnitCount)
  | None =>
      match area, q_H with
      | Some a, Some q =>
          aq <- mul a q ;;
          Qmax_kW <- divf aq 1000.0 ;;
          K <- fdiv Qmax_kW delta_T_max ;;
          Ok (K, AreaIndex)
      | _, _ => Raise ValueError
      end
  end.

(** Coefficients of the monthly COP (line 56). *)
Definition a : float := 0.00035510.
Definition b : float := 0.0578.
Definition c : float := -0.0637.
Definition d : float := 6.0284.

Definition month_names : list string :=
  ["11月"; "12月"; "1月"; "2月"; "3月"; "4月"]%string.

(** One entry of [monthly_data] (lines 73-81). *)
Record month_row : Type := {
  month : string;
  T_menv : num;
  T_mout : num;
  days : num;
  COP_m : float;
  Qm_kWh : float;
  Pm_kWh : float
}.

(** Line 57. *)
Definition monthly_COP (Tenv Tout : num) : result float :=
  Tenv2 <- pow2 Tenv ;;
  t1 <- fmul a Tenv2 ;;
  t2 <- fmul b Tenv ;;
  t3 <- fmul c Tout ;;
  Ok (t1 + t2 + t3 + d).

(** The body of the loop (lines 52-81) for the month at position [i]. *)
Definition month_step (K : float) (i : nat) (Tenv Tout dys : num)
  : result month_row :=
  month_name <- index month_names i ;;
  t_m <- mulf dys 24.0 ;;
  COP <- monthly_COP Tenv Tout ;;
  delta_T <- fsub T_room Tenv ;;
  if delta_T <=? 0 then
    Ok {| month := month_name; T_menv := Tenv; T_mout := Tout; days := dys;
          COP_m := COP; Qm_kWh := 0.0; Pm_kWh := 0.0 |}
  else
    let Qm := K * delta_T * t_m in
    Pm <- fdiv Qm COP ;;
    Ok {| month := month_name; T_menv := Tenv; T_mout := Tout; days := dys;
          COP_m := COP; Qm_kWh := Qm; Pm_kWh := Pm |}.

(** The loop state: [Q_total], [P_total] and [monthly_data]. *)
Record acc : Type := {
  Q_total : float;
  P_total : float;
  monthly_data : list month_row
}.

(** Lines 51-81: the loop over [enumerate(zip(...))], started at index [i]. *)
Fixpoint months_loop (K : float) (i : nat) (rows : list (num * num * num))
    (st : acc) : result acc :=
  match rows with
  | [] => Ok st
  | (Tenv, Tout, dys) :: rows' =>
      r <- month_step K i Tenv Tout dys ;;
      months_loop K (S i) rows'
        {| Q_total := Q_total st + Qm_kWh r;
           P_total := P_total st + Pm_kWh r;
           monthly_data := monthly_data st ++ [r] |}
  end.

(** The [details] dictionary (lines 91-97). *)
Record details : Type := {
  K : float;
  Q_total_kWh : float;
  P_total_kWh : float;
  SCOP : float;
  monthly : list month_row
}.

(** Lines 84-88. *)
Definition scop_ratio (Q P : float) : result float :=
  if 0 <? P then fdiv Q P else Ok nan.

Definition calculate_scop (env_temps_monthly out_temps_monthly days_in_month : list num)
    (n_units area q_H : option num) (T_out_design : num)
  : result (float * details) :=
  P <- P_hmax_design T_out_design ;;
  Km <- heat_transfer_K P n_units area q_H ;;
  st <- months_loop (fst Km) 0
          (zip3 env_temps_monthly out_temps_monthly days_in_month)
          {| Q_total := 0.0; P_total := 0.0; monthly_data := [] |} ;;
  scop <- scop_ratio (Q_total st) (P_total st) ;;
  Ok (scop, {| K := fst Km; Q_total_kWh := Q_total st;
               P_total_kWh := P_total st; SCOP := scop;
               monthly := monthly_data st |}).

(** The default of the keyword argument [T_out_design]. *)
Definition T_out_design_default : num := Int 45.

End Scop.

Import Scop.

(** ** The loop as a list of monthly rows

    [month_rows] is the list of rows the loop appends, and the two totals are
    left-to-right running sums over it, started at [0.0]. *)

Fixpoint month_rows (K : float) (i : nat) (rows : list (num * num * num))
  : result (list month_row) :=
  match rows with
  | [] => Ok []
  | (Tenv, Tout, dys) :: rows' =>
      r <- month_step K i Tenv Tout dys ;;
      rs <- month_rows K (S i) rows' ;;
      Ok (r :: rs)
  end.

(** [q0 + x1 + x2 + ...], added in list order. *)
Definition running_sum (q0 : float) (xs : list float) : float :=
  fold_left PrimFloat.add xs q0.

Definition float_sum (xs : list float) : float := running_sum 0.0%float xs.

(** The temperature differential of line 60 is not positive. *)
Definition no_heating_demand (m : month_row) : Prop :=
  exists delta_T, fsub T_room (T_menv m) = Ok delta_T /\ (delta_T <=? 0)%float = true.

(** ** Reference scenario (the example call at the end of src/main.py) *)

Definition env_temps : list num :=
  map Float [-0.5; -1.2; -2.8; -1.5; 1.0; 5.5]%float.
Definition out_temps : list num :=
  map Float [40.0; 40.0; 40.0; 40.0; 40.0; 40.0]%float.
Definition days_in_month : list num :=
  map Int [15; 31; 31; 28; 31; 5].

Definition reference_call : result (float * details) :=
  calculate_scop env_temps out_temps days_in_month
    (Some (Int 21)) None None T_out_design_default.

Definition reference_result : float * details :=
  Eval vm_compute in
    match reference_call with
    | Ok x => x
    | Raise _ => (nan, {| K := nan; Q_total_kWh := nan; P_total_kWh := nan;
                          SCOP := nan; monthly := [] |})
    end.

(** A season whose only month is warmer than the room. *)
Definition warm_call : result (float * details) :=
  calculate_scop [Float 25.0] [Float 40.0] [Int 30]
    (Some (Int 21)) None None T_out_design_default.

Definition warm_result : float * details :=
  Eval vm_compute in
    match warm_call with
    | Ok x => x
    | Raise _ => (nan, {| K := nan; Q_total_kWh := nan; P_total_kWh := nan;
                          SCOP := nan; monthly := [] |})
    end.

(** ** Ranges of inputs *)

(** [x] lies between the finite bounds [lo] and [hi]. *)
Definition between (lo hi x : float) : bool :=
  (is_finite lo && is_finite hi && (lo <=? x) && (x <=? hi))%float%bool.

(** The number [v] is an integer between [lo] and [hi], or a float between
    the floats of these two integers. *)
Definition num_between (lo hi : Z) (v : num) : bool :=
  match v with
  | Int z => (lo <=? z)%Z && (z <=? hi)%Z
  | Float f =>
      match float_of_int lo, float_of_int hi with
      | Ok flo, Ok fhi => between flo fhi f
      | _, _ => false
      end
  end.

(** ** Rounding in binary64 *)

Module B64.

(** The last-place exponent of a number of magnitude [d]. *)
Definition fexp64 (d : Z) : Z := Z.max (d - 53) (-1074).

(** A mantissa with its round and sticky bits, read as a number of quarters. *)
Definition position (mrs : shr_record) : Z :=
  4 * shr_m mrs + 2 * Z.b2z (shr_r mrs) + Z.b2z (shr_s mrs).

Definition loc_code (l : location) : Z :=
  match l with
  | loc_Exact => 0
  | loc_Inexact Lt => 1
  | loc_Inexact Eq => 2
  | loc_Inexact Gt => 3
  end.

(** Dropping [k] low bits of a position, keeping whether any was set. *)
Definition sticky_shift (P k : Z) : Z :=
  2 * (P / 2 ^ (k + 1)) + (if P mod 2 ^ (k + 1) =? 0 then 0 else 1).

(** The integer nearest to a number of quarters, ties to even. *)
Definition rne4 (P : Z) : Z :=
  P / 4 +
  (if P mod 4 =? 3 then 1
   else if (P mod 4 =? 2) && Z.odd (P / 4) then 1 else 0).

(** The mantissa rounded after [k] bits were dropped. *)
Definition RN (P k : Z) : Z := rne4 (sticky_shift P k).

(** The float made of the rounded mantissa [n] at exponent [E]. *)
Definition finish (s : bool) (n E : Z) : spec_float :=
  if n =? 0 then S754_zero s
  else if n =? 2 ^ 53 then
    if E + 1 <=? 971 then S754_finite s (2 ^ 52)%positive (E + 1)
    else S754_infinity s
  else if E <=? 971 then S754_finite s (Z.to_pos n) E
  else S754_infinity s.

Definition Omax : Z := 2 ^ 2098.

Definition ord (x : spec_float) : Z :=
  match x with
  | S754_zero _ => 0
  | S754_finite s m e => cond_Zopp s (Zpos m * 2 ^ (e + 1074))
  | S754_infinity s => cond_Zopp s Omax
  | S754_nan => 0
  end.

Definition not_nan (x : spec_float) : Prop := x <> S754_nan.

(** The rounded value of [m * 2 ^ e], in units of [2 ^ -1074]. *)
Definition rounded (m e : Z) : Z :=
  RN (4 * m) (fexp64 (Zdigits2 m + e) - e) * 2 ^ (fexp64 (Zdigits2 m + e) + 1074).

Inductive nonneg_shape : spec_float -> Prop :=
| shape_zero s : nonneg_shape (S754_zero s)
| shape_finite m e : nonneg_shape (S754_finite false m e)
| shape_infinity : nonneg_shape (S754_infinity false).

(** The float nearest to [V] units of [2 ^ -1074], as an [ord]. *)
Definition nearest (V : Z) : Z :=
  ord (binary_round prec emax false (Z.to_pos V) (-1074)).


Lemma fexp_fexp64 d : fexp prec emax d = fexp64 d.
Proof. reflexivity. Qed.

(** *** Number of digits *)

Lemma digits2_pos_bounds p :
  2 ^ (Zpos (digits2_pos p) - 1) <= Zpos p < 2 ^ Zpos (digits2_pos p).
Proof.
  induction p as [p IH|p IH|]; simpl digits2_pos.
  - rewrite Pos2Z.inj_succ. replace (Z.succ (Zpos (digits2_pos p)) - 1)
      with (Z.succ (Zpos (digits2_pos p) - 1)) by lia.
    rewrite !Z.pow_succ_r by lia. lia.
  - rewrite Pos2Z.inj_succ. replace (Z.succ (Zpos (digits2_pos p)) - 1)
      with (Z.succ (Zpos (digits2_pos p) - 1)) by lia.
    rewrite !Z.pow_succ_r by lia. lia.
  - simpl. lia.
Qed.

Lemma Zdigits2_bounds m :
  0 < m -> 2 ^ (Zdigits2 m - 1) <= m < 2 ^ Zdigits2 m.
Proof.
  destruct m as [|p|p]; try lia. intros _. apply digits2_pos_bounds.
Qed.

Lemma Zdigits2_pos m : 0 < m -> 0 < Zdigits2 m.
Proof. destruct m; simpl; lia. Qed.

Lemma Zdigits2_nonneg m : 0 <= Zdigits2 m.
Proof. destruct m; simpl; lia. Qed.

Lemma Zdigits2_unique m d :
  0 < m -> 2 ^ (d - 1) <= m < 2 ^ d -> Zdigits2 m = d.
Proof.
  intros Hm [Hlo Hhi]. pose proof (Zdigits2_bounds m Hm) as [Hlo' Hhi'].
  pose proof (Zdigits2_pos m Hm) as HD.
  assert (Hd : 0 < d).
  { destruct (Z.lt_ge_cases 0 d) as [|Hle]; [assumption|].
    assert (2 ^ d <= 2 ^ 0) by (apply Z.pow_le_mono_r; lia). simpl in *. lia. }
  destruct (Z.lt_trichotomy (Zdigits2 m) d) as [Hlt|[Heq|Hgt]]; [|exact Heq|].
  - assert (2 ^ Zdigits2 m <= 2 ^ (d - 1)) by (apply Z.pow_le_mono_r; lia). lia.
  - assert (2 ^ d <= 2 ^ (Zdigits2 m - 1)) by (apply Z.pow_le_mono_r; lia). lia.
Qed.

Lemma Zdigits2_le m1 m2 : 0 < m1 -> m1 <= m2 -> Zdigits2 m1 <= Zdigits2 m2.
Proof.
  intros H1 H12.
  pose proof (Zdigits2_bounds m1 H1) as [Hlo1 Hhi1].
  pose proof (Zdigits2_bounds m2 ltac:(lia)) as [Hlo2 Hhi2].
  destruct (Z.le_gt_cases (Zdigits2 m1) (Zdigits2 m2)) as [|Hgt]; [assumption|].
  assert (2 ^ Zdigits2 m2 <= 2 ^ (Zdigits2 m1 - 1)) by (apply Z.pow_le_mono_r; lia).
  lia.
Qed.

Lemma Zdigits2_mul_pow2 m j :
  0 < m -> 0 <= j -> Zdigits2 (m * 2 ^ j) = Zdigits2 m + j.
Proof.
  intros Hm Hj. pose proof (Zdigits2_bounds m Hm) as [Hlo Hhi].
  pose proof (Zdigits2_pos m Hm).
  assert (0 < 2 ^ j) by (apply Z.pow_pos_nonneg; lia).
  apply Zdigits2_unique; [nia|].
  replace (Zdigits2 m + j - 1) with (Zdigits2 m - 1 + j) by lia.
  rewrite !Z.pow_add_r by lia. nia.
Qed.

(** *** Shifting a position *)

Lemma pow2_pos k : 0 <= k -> 0 < 2 ^ k.
Proof. intros. apply Z.pow_pos_nonneg; lia. Qed.

Lemma sticky_shift_0 P : sticky_shift P 0 = P.
Proof.
  unfold sticky_shift. change (2 ^ (0 + 1)) with 2.
  pose proof (Z.div_mod P 2 ltac:(lia)).
  pose proof (Z.mod_pos_bound P 2 ltac:(lia)).
  destruct (Z.eqb_spec (P mod 2) 0); lia.
Qed.

Lemma sticky_shift_shift P a b :
  0 <= a -> 0 <= b ->
  sticky_shift (sticky_shift P a) b = sticky_shift P (a + b).
Proof.
  intros Ha Hb. unfold sticky_shift.
  replace (a + b + 1) with ((a + 1) + b) by lia.
  rewrite (Z.pow_add_r 2 (a + 1) b) by lia.
  rewrite (Z.pow_add_r 2 b 1) by lia. change (2 ^ 1) with 2.
  pose proof (pow2_pos (a + 1) ltac:(lia)) as HN.
  pose proof (pow2_pos b Hb) as HM.
  set (N := 2 ^ (a + 1)) in *. set (M := 2 ^ b) in *.
  pose proof (Z.div_mod P N ltac:(lia)) as HP.
  pose proof (Z.mod_pos_bound P N HN) as HPr.
  set (u := P / N) in *. set (rho := P mod N) in *.
  pose proof (Z.div_mod u M ltac:(lia)) as Hu.
  pose proof (Z.mod_pos_bound u M HM) as Hur.
  set (w := u / M) in *. set (v := u mod M) in *.
  set (t := if rho =? 0 then 0 else 1).
  assert (Ht : (t = 0 /\ rho = 0) \/ (t = 1 /\ rho <> 0)).
  { unfold t. destruct (Z.eqb_spec rho 0); lia. }
  assert (HX : (2 * u + t) / (M * 2) = w /\ (2 * u + t) mod (M * 2) = 2 * v + t).
  { split; symmetry.
    - apply (Z.div_unique _ _ w (2 * v + t)); nia.
    - apply (Z.mod_unique _ _ w (2 * v + t)); nia. }
  assert (HY : P / (N * M) = w /\ P mod (N * M) = N * v + rho).
  { split; symmetry.
    - apply (Z.div_unique _ _ w (N * v + rho)); nia.
    - apply (Z.mod_unique _ _ w (N * v + rho)); nia. }
  destruct HX as [-> ->]. destruct HY as [-> ->].
  f_equal.
  destruct (Z.eqb_spec (2 * v + t) 0), (Z.eqb_spec (N * v + rho) 0); nia.
Qed.

Lemma sticky_shift_le P P' k :
  0 <= k -> P <= P' -> sticky_shift P k <= sticky_shift P' k.
Proof.
  intros Hk HP. unfold sticky_shift.
  pose proof (pow2_pos (k + 1) ltac:(lia)) as HN. set (N := 2 ^ (k + 1)) in *.
  pose proof (Z.div_mod P N ltac:(lia)).
  pose proof (Z.mod_pos_bound P N HN).
  pose proof (Z.div_mod P' N ltac:(lia)).
  pose proof (Z.mod_pos_bound P' N HN).
  destruct (Z.eqb_spec (P mod N) 0), (Z.eqb_spec (P' mod N) 0); nia.
Qed.

Lemma sticky_shift_quot P k :
  0 <= k -> sticky_shift P k / 4 = P / 2 ^ (k + 2).
Proof.
  intros Hk. unfold sticky_shift.
  replace (k + 2) with ((k + 1) + 1) by lia.
  rewrite (Z.pow_add_r 2 (k + 1) 1) by lia. change (2 ^ 1) with 2.
  rewrite <- Z.div_div by (try apply pow2_pos; lia).
  set (u := P / 2 ^ (k + 1)).
  pose proof (Z.div_mod u 2 ltac:(lia)). pose proof (Z.mod_pos_bound u 2 ltac:(lia)).
  destruct (P mod 2 ^ (k + 1) =? 0); symmetry;
    [apply (Z.div_unique _ 4 (u / 2) (2 * (u mod 2) + 0))
    |apply (Z.div_unique _ 4 (u / 2) (2 * (u mod 2) + 1))]; lia.
Qed.

(** Scaling the mantissa by [2 ^ j] and dropping [j] more bits. *)
Lemma sticky_shift_scale P k j :
  0 <= k -> 0 <= j -> sticky_shift (P * 2 ^ j) (k + j) = sticky_shift P k.
Proof.
  intros Hk Hj. unfold sticky_shift.
  replace (k + j + 1) with ((k + 1) + j) by lia.
  rewrite (Z.pow_add_r 2 (k + 1) j) by lia.
  pose proof (pow2_pos (k + 1) ltac:(lia)). pose proof (pow2_pos j Hj).
  rewrite Z.div_mul_cancel_r by lia.
  rewrite Z.mul_mod_distr_r by lia.
  destruct (Z.eqb_spec (P mod 2 ^ (k + 1)) 0) as [->|Hne]; [reflexivity|].
  destruct (Z.eqb_spec (P mod 2 ^ (k + 1) * 2 ^ j) 0); [nia|reflexivity].
Qed.

(** *** The shift of [SpecFloat] on positions *)

Lemma position_of_loc m l :
  position (shr_record_of_loc m l) = 4 * m + loc_code l.
Proof. destruct l as [|[]]; unfold position; simpl; lia. Qed.

Lemma shr_m_of_loc m l : shr_m (shr_record_of_loc m l) = m.
Proof. destruct l as [|[]]; reflexivity. Qed.

Lemma position_quot mrs : position mrs / 4 = shr_m mrs.
Proof.
  unfold position. symmetry.
  apply (Z.div_unique _ 4 _ (2 * Z.b2z (shr_r mrs) + Z.b2z (shr_s mrs))).
  - destruct (shr_r mrs), (shr_s mrs); simpl; lia.
  - lia.
Qed.

Lemma shr_1_position mrs :
  0 <= shr_m mrs ->
  position (shr_1 mrs) = sticky_shift (position mrs) 1 /\ 0 <= shr_m (shr_1 mrs).
Proof.
  destruct mrs as [m r s]. unfold position, sticky_shift.
  change (2 ^ (1 + 1)) with 4. cbn [shr_m shr_r shr_s]. intros Hm.
  set (c := 2 * Z.b2z r + Z.b2z s).
  assert (Hc : 0 <= c < 4 /\ (c = 0 <-> (r || s) = false)).
  { unfold c. destruct r, s; simpl; lia. }
  assert (Hq : (4 * m + 2 * Z.b2z r + Z.b2z s) / 4 = m).
  { symmetry. apply (Z.div_unique _ 4 m c); unfold c in *; lia. }
  assert (Hr : (4 * m + 2 * Z.b2z r + Z.b2z s) mod 4 = c).
  { symmetry. apply (Z.mod_unique _ 4 m c); unfold c in *; lia. }
  rewrite Hq, Hr.
  assert (Hs : (if c =? 0 then 0 else 1) = Z.b2z (r || s)).
  { destruct (Z.eqb_spec c 0) as [H0|H0]; destruct (r || s); simpl; try reflexivity;
      destruct Hc as [_ [H1 H2]]; [specialize (H1 H0) | specialize (H2 eq_refl)];
      congruence. }
  rewrite Hs.
  destruct m as [|[p|p|]|p]; cbn [shr_1 shr_m shr_r shr_s Z.b2z]; try lia;
    destruct (r || s); simpl; lia.
Qed.

Lemma iter_pos_shr_position k mrs :
  0 <= shr_m mrs ->
  position (iter_pos shr_1 k mrs) = sticky_shift (position mrs) (Zpos k) /\
  0 <= shr_m (iter_pos shr_1 k mrs).
Proof.
  revert mrs. induction k as [k IH|k IH|]; intros mrs Hm; simpl iter_pos.
  - destruct (shr_1_position mrs Hm) as [H1 Hm1].
    destruct (IH _ Hm1) as [H2 Hm2]. destruct (IH _ Hm2) as [H3 Hm3].
    split; [|exact Hm3].
    rewrite H3, H2, H1, !sticky_shift_shift by lia. f_equal. lia.
  - destruct (IH _ Hm) as [H2 Hm2]. destruct (IH _ Hm2) as [H3 Hm3].
    split; [|exact Hm3].
    rewrite H3, H2, !sticky_shift_shift by lia. f_equal. lia.
  - apply shr_1_position, Hm.
Qed.

(** [shr] by a number of bits that may be zero or negative. *)
Lemma shr_position mrs e n :
  0 <= shr_m mrs ->
  let '(mrs', e') := shr mrs e n in
  position mrs' = sticky_shift (position mrs) (Z.max n 0) /\
  0 <= shr_m mrs' /\ e' = e + Z.max n 0.
Proof.
  intros Hm. destruct n as [|k|k]; simpl shr.
  - change (Z.max 0 0) with 0. rewrite sticky_shift_0.
    split; [reflexivity|split; [assumption|lia]].
  - destruct (iter_pos_shr_position k mrs Hm) as [H1 H2].
    change (Z.max (Zpos k) 0) with (Zpos k).
    split; [exact H1|split; [exact H2|reflexivity]].
  - change (Z.max (Zneg k) 0) with 0. rewrite sticky_shift_0.
    split; [reflexivity|split; [assumption|lia]].
Qed.

Lemma round_nearest_even_rne4 mrs :
  0 <= shr_m mrs ->
  round_nearest_even (shr_m mrs) (loc_of_shr_record mrs) = rne4 (position mrs).
Proof.
  intros Hm. unfold rne4. rewrite position_quot.
  destruct mrs as [m r s]. simpl shr_m in *.
  assert (Hr : position {| shr_m := m; shr_r := r; shr_s := s |} mod 4
               = 2 * Z.b2z r + Z.b2z s).
  { unfold position. simpl. symmetry.
    apply (Z.mod_unique _ 4 m); destruct r, s; simpl; lia. }
  rewrite Hr. rewrite <- Z.negb_even.
  destruct r, s; simpl; try lia. destruct (Z.even m); simpl; lia.
Qed.

(** *** Rounding is monotone *)

Lemma rne4_le P P' : P <= P' -> rne4 P <= rne4 P'.
Proof.
  intros HP. unfold rne4.
  pose proof (Z.div_mod P 4 ltac:(lia)). pose proof (Z.mod_pos_bound P 4 ltac:(lia)).
  pose proof (Z.div_mod P' 4 ltac:(lia)). pose proof (Z.mod_pos_bound P' 4 ltac:(lia)).
  destruct (Z.eq_dec (P / 4) (P' / 4)) as [Heq|Hne].
  - rewrite Heq in *.
    destruct (Z.eqb_spec (P mod 4) 3), (Z.eqb_spec (P' mod 4) 3),
      (Z.eqb_spec (P mod 4) 2), (Z.eqb_spec (P' mod 4) 2),
      (Z.odd (P' / 4)); simpl; lia.
  - destruct (Z.eqb_spec (P mod 4) 3), (Z.eqb_spec (P' mod 4) 3),
      ((P mod 4 =? 2) && Z.odd (P / 4)), ((P' mod 4 =? 2) && Z.odd (P' / 4)); lia.
Qed.

Lemma RN_le P P' k : 0 <= k -> P <= P' -> RN P k <= RN P' k.
Proof. intros Hk HP. apply rne4_le, sticky_shift_le; assumption. Qed.

Lemma RN_scale P k j : 0 <= k -> 0 <= j -> RN (P * 2 ^ j) (k + j) = RN P k.
Proof. intros. unfold RN. rewrite sticky_shift_scale by assumption. reflexivity. Qed.

(** The rounded mantissa is the truncated one or its successor. *)
Lemma RN_bounds m c k :
  0 <= k -> 0 <= c < 4 ->
  m / 2 ^ k <= RN (4 * m + c) k <= m / 2 ^ k + 1.
Proof.
  intros Hk Hc. unfold RN, rne4. rewrite sticky_shift_quot by assumption.
  replace (k + 2) with (2 + k) by lia. rewrite Z.pow_add_r by lia.
  change (2 ^ 2) with 4. rewrite <- Z.div_div by (try apply pow2_pos; lia).
  replace ((4 * m + c) / 4) with m
    by (apply (Z.div_unique _ 4 m c); lia).
  destruct (sticky_shift (4 * m + c) k mod 4 =? 3); [lia|].
  destruct ((sticky_shift (4 * m + c) k mod 4 =? 2) && Z.odd (m / 2 ^ k)); lia.
Qed.

Lemma RN_0 m c : 0 <= c < 4 -> RN (4 * m + c) 0 = rne4 (4 * m + c).
Proof. intros. unfold RN. rewrite sticky_shift_0. reflexivity. Qed.

Lemma rne4_exact m : rne4 (4 * m) = m.
Proof.
  unfold rne4.
  replace (4 * m / 4) with m by (apply (Z.div_unique _ 4 m 0); lia).
  replace (4 * m mod 4) with 0 by (apply (Z.mod_unique _ 4 m 0); lia).
  simpl. lia.
Qed.

(** *** What [binary_round_aux] returns *)

Lemma fexp64_ge d : -1074 <= fexp64 d.
Proof. unfold fexp64. lia. Qed.

Lemma fexp64_le d d' : d <= d' -> fexp64 d <= fexp64 d'.
Proof. unfold fexp64. lia. Qed.

(** The truncated mantissa has at most 53 bits. *)
Lemma truncated_lt m e :
  0 <= m -> e <= fexp64 (Zdigits2 m + e) ->
  m / 2 ^ (fexp64 (Zdigits2 m + e) - e) < 2 ^ 53.
Proof.
  intros Hm He. set (k := fexp64 (Zdigits2 m + e) - e).
  assert (Hk : 0 <= k) by (unfold k; lia).
  pose proof (pow2_pos k Hk) as H2k.
  destruct (Z.eq_dec m 0) as [->|Hne].
  - rewrite Z.div_0_l by lia. lia.
  - apply Z.div_lt_upper_bound; [lia|].
    pose proof (Zdigits2_bounds m ltac:(lia)) as [_ Hhi].
    assert (Zdigits2 m <= k + 53) by (unfold k, fexp64; lia).
    assert (2 ^ Zdigits2 m <= 2 ^ (k + 53)) by (apply Z.pow_le_mono_r; lia).
    rewrite Z.pow_add_r in * by lia. lia.
Qed.

(** Above the smallest exponent the truncated mantissa has 53 bits. *)
Lemma truncated_ge m e :
  0 < m -> e <= fexp64 (Zdigits2 m + e) -> -1074 < fexp64 (Zdigits2 m + e) ->
  2 ^ 52 <= m / 2 ^ (fexp64 (Zdigits2 m + e) - e).
Proof.
  intros Hm He Hmin. set (k := fexp64 (Zdigits2 m + e) - e).
  assert (Hk : k = Zdigits2 m - 53) by (unfold k, fexp64 in *; lia).
  assert (Hk0 : 0 <= k) by (unfold k; lia).
  pose proof (pow2_pos k Hk0) as H2k.
  apply Z.div_le_lower_bound; [lia|].
  pose proof (Zdigits2_bounds m Hm) as [Hlo _].
  replace (Zdigits2 m - 1) with (k + 52) in Hlo by lia.
  rewrite Z.pow_add_r in Hlo by lia. lia.
Qed.

Lemma binary_round_aux_finish s m l e :
  0 <= m ->
  e <= fexp64 (Zdigits2 m + e) ->
  binary_round_aux prec emax s m e l =
  finish s (RN (4 * m + loc_code l) (fexp64 (Zdigits2 m + e) - e))
    (fexp64 (Zdigits2 m + e)).
Proof.
  intros Hm He. unfold binary_round_aux, shr_fexp.
  change (fexp prec emax) with fexp64. change (emax - prec) with 971.
  set (E := fexp64 (Zdigits2 m + e)) in *.
  assert (HE : -1074 <= E) by apply fexp64_ge.
  pose proof (shr_position (shr_record_of_loc m l) e (E - e)) as H1.
  rewrite shr_m_of_loc, position_of_loc in H1. specialize (H1 Hm).
  destruct (shr (shr_record_of_loc m l) e (E - e)) as [mrs' e'].
  destruct H1 as (Hpos & Hm' & ->).
  rewrite Z.max_l in * by lia. replace (e + (E - e)) with E by lia.
  rewrite (round_nearest_even_rne4 _ Hm'), Hpos.
  fold (RN (4 * m + loc_code l) (E - e)).
  assert (Hc : 0 <= loc_code l < 4) by (destruct l as [|[]]; simpl; lia).
  pose proof (RN_bounds m (loc_code l) (E - e) ltac:(lia) Hc) as [Hlo Hhi].
  pose proof (truncated_lt m e Hm He) as Hlt. fold E in Hlt.
  assert (H0 : 0 <= m / 2 ^ (E - e)) by (apply Z.div_pos; [lia|apply pow2_pos; lia]).
  set (n := RN (4 * m + loc_code l) (E - e)) in *.
  unfold finish.
  destruct (Z.eqb_spec n 0) as [Hn0|Hn0].
  - rewrite Hn0. change (Zdigits2 0) with 0.
    assert (Hsh : fexp64 (0 + E) - E <= 0) by (unfold fexp64; lia).
    destruct (fexp64 (0 + E) - E) as [|p|p] eqn:Hk; try lia; reflexivity.
  - destruct (Z.eqb_spec n (2 ^ 53)) as [Hn53|Hn53].
    + rewrite Hn53. change (Zdigits2 (2 ^ 53)) with 54.
      replace (fexp64 (54 + E) - E) with 1 by (unfold fexp64; lia).
      reflexivity.
    + assert (Hd : Zdigits2 n <= 53).
      { destruct (Z.le_gt_cases (Zdigits2 n) 53) as [|Hgt]; [assumption|].
        pose proof (Zdigits2_bounds n ltac:(lia)) as [Hlo' _].
        assert (2 ^ 53 <= 2 ^ (Zdigits2 n - 1)) by (apply Z.pow_le_mono_r; lia).
        lia. }
      assert (Hsh : fexp64 (Zdigits2 n + E) - E <= 0) by (unfold fexp64; lia).
      destruct n as [|p|p] eqn:Hn; try lia.
      destruct (fexp64 (Zdigits2 (Zpos p) + E) - E) as [|q|q] eqn:Hk; try lia;
        reflexivity.
Qed.

(** *** The order of binary64 numbers

    [ord x] is the value of [x] counted in units of [2 ^ -1074], the smallest
    positive number; the infinities are placed just beyond the finite
    numbers. *)

Lemma valid_finite s m e :
  valid_binary (S754_finite s m e) = true ->
  -1074 <= e <= 971 /\ Zpos m < 2 ^ 53 /\ (-1074 < e -> 2 ^ 52 <= Zpos m) /\
  e = fexp64 (Zdigits2 (Zpos m) + e).
Proof.
  unfold SpecFloat.valid_binary, bounded, canonical_mantissa.
  change (fexp prec emax) with fexp64. change (emax - prec) with 971.
  intros H. apply andb_prop in H as [Hc Hb].
  apply Z.eqb_eq in Hc. apply Z.leb_le in Hb.
  pose proof (digits2_pos_bounds m) as [Hlo Hhi].
  set (D := Zpos (digits2_pos m)) in *.
  assert (HD : D <= 53) by (unfold fexp64 in Hc; lia).
  assert (2 ^ D <= 2 ^ 53) by (apply Z.pow_le_mono_r; lia).
  repeat split; try (unfold fexp64 in Hc; lia).
  - intros He. assert (D = 53) by (unfold fexp64 in Hc; lia).
    replace (D - 1) with 52 in Hlo by lia. exact Hlo.
  - symmetry. exact Hc.
Qed.

Lemma ord_finite_bounds m e :
  valid_binary (S754_finite false m e) = true ->
  0 < Zpos m * 2 ^ (e + 1074) < Omax.
Proof.
  intros H. apply valid_finite in H as ((He1 & He2) & Hm & _).
  pose proof (pow2_pos (e + 1074) ltac:(lia)).
  assert (2 ^ (e + 1074) <= 2 ^ 2045) by (apply Z.pow_le_mono_r; lia).
  unfold Omax. change (2 ^ 2098) with (2 ^ 53 * 2 ^ 2045). nia.
Qed.

Lemma ord_exponent_lt m1 e1 m2 e2 :
  valid_binary (S754_finite false m1 e1) = true ->
  valid_binary (S754_finite false m2 e2) = true ->
  e1 < e2 ->
  Zpos m1 * 2 ^ (e1 + 1074) < Zpos m2 * 2 ^ (e2 + 1074).
Proof.
  intros H1 H2 He.
  apply valid_finite in H1 as ((He1 & _) & Hm1 & _).
  apply valid_finite in H2 as (_ & _ & Hm2 & _).
  specialize (Hm2 ltac:(lia)).
  pose proof (pow2_pos (e1 + 1074) ltac:(lia)).
  assert (2 ^ (e1 + 1074 + 1) <= 2 ^ (e2 + 1074)) by (apply Z.pow_le_mono_r; lia).
  rewrite Z.pow_add_r in * by lia. change (2 ^ 1) with 2 in *.
  change (2 ^ 53) with (2 ^ 52 * 2) in Hm1. nia.
Qed.

Lemma compare_scaled a b p : 0 < p -> (a * p ?= b * p) = (a ?= b).
Proof.
  intros Hp. destruct (Z.compare_spec a b) as [->|Hlt|Hgt].
  - apply Z.compare_refl.
  - apply Z.compare_lt_iff. nia.
  - apply Z.compare_gt_iff. nia.
Qed.

Lemma compare_opp_scaled a b p :
  0 < p -> (- (a * p) ?= - (b * p)) = CompOpp (a ?= b).
Proof.
  intros Hp. destruct (Z.compare_spec a b) as [->|Hlt|Hgt]; simpl.
  - apply Z.compare_refl.
  - apply Z.compare_gt_iff. nia.
  - apply Z.compare_lt_iff. nia.
Qed.

Lemma SFcompare_ord x y :
  valid_binary x = true -> valid_binary y = true ->
  not_nan x -> not_nan y ->
  SFcompare x y = Some (ord x ?= ord y).
Proof.
  intros Hx Hy Hnx Hny.
  destruct x as [sx|sx| |sx mx ex]; [| |congruence|];
    destruct y as [sy|sy| |sy my ey]; try congruence; clear Hnx Hny.
  - reflexivity.
  - destruct sy; reflexivity.
  - pose proof (ord_finite_bounds my ey ltac:(destruct sy; exact Hy)).
    destruct sy; cbn [SFcompare ord cond_Zopp]; f_equal; symmetry;
      [apply Z.compare_gt_iff | apply Z.compare_lt_iff]; lia.
  - destruct sx; reflexivity.
  - destruct sx, sy; reflexivity.
  - pose proof (ord_finite_bounds my ey ltac:(destruct sy; exact Hy)).
    destruct sx, sy; cbn [SFcompare ord cond_Zopp]; f_equal; symmetry;
      try (apply Z.compare_gt_iff; lia); try (apply Z.compare_lt_iff; lia).
  - pose proof (ord_finite_bounds mx ex ltac:(destruct sx; exact Hx)).
    destruct sx; cbn [SFcompare ord cond_Zopp]; f_equal; symmetry;
      [apply Z.compare_lt_iff | apply Z.compare_gt_iff]; lia.
  - pose proof (ord_finite_bounds mx ex ltac:(destruct sx; exact Hx)).
    destruct sx, sy; cbn [SFcompare ord cond_Zopp]; f_equal; symmetry;
      try (apply Z.compare_gt_iff; lia); try (apply Z.compare_lt_iff; lia).
  - assert (Hx' : valid_binary (S754_finite false mx ex) = true)
      by (destruct sx; exact Hx).
    assert (Hy' : valid_binary (S754_finite false my ey) = true)
      by (destruct sy; exact Hy).
    pose proof (ord_finite_bounds mx ex Hx').
    pose proof (ord_finite_bounds my ey Hy').
    destruct sx, sy; cbn [SFcompare ord cond_Zopp]; f_equal; symmetry;
      try (apply Z.compare_gt_iff; lia); try (apply Z.compare_lt_iff; lia).
    + destruct (Z.compare_spec ex ey) as [->|Hlt|Hgt].
      * pose proof (pow2_pos (ey + 1074)
          ltac:(apply valid_finite in Hy' as ((? & _) & _); lia)) as Hp.
        exact (compare_opp_scaled (Zpos mx) (Zpos my) _ Hp).
      * pose proof (ord_exponent_lt _ _ _ _ Hx' Hy' Hlt).
        apply Z.compare_gt_iff. lia.
      * pose proof (ord_exponent_lt _ _ _ _ Hy' Hx' Hgt).
        apply Z.compare_lt_iff. lia.
    + destruct (Z.compare_spec ex ey) as [->|Hlt|Hgt].
      * pose proof (pow2_pos (ey + 1074)
          ltac:(apply valid_finite in Hy' as ((? & _) & _); lia)) as Hp.
        exact (compare_scaled (Zpos mx) (Zpos my) _ Hp).
      * pose proof (ord_exponent_lt _ _ _ _ Hx' Hy' Hlt).
        apply Z.compare_lt_iff. lia.
      * pose proof (ord_exponent_lt _ _ _ _ Hy' Hx' Hgt).
        apply Z.compare_gt_iff. lia.
Qed.

(** *** The value of a rounded number *)

Lemma Omax_split : Omax = 2 ^ 53 * 2 ^ 2045.
Proof. reflexivity. Qed.

Lemma Omax_pos : 0 < Omax.
Proof. reflexivity. Qed.

Lemma pow2_le a b : a <= b -> 2 ^ a <= 2 ^ b.
Proof. intros. apply Z.pow_le_mono_r; lia. Qed.

Lemma pow2_succ a : 0 <= a -> 2 ^ (a + 1) = 2 * 2 ^ a.
Proof. intros. rewrite Z.pow_add_r by lia. change (2 ^ 1) with 2. lia. Qed.

Lemma finish_ord n E :
  0 <= n <= 2 ^ 53 -> -1074 <= E -> (-1074 < E -> n = 0 \/ 2 ^ 52 <= n) ->
  ord (finish false n E) = Z.min (n * 2 ^ (E + 1074)) Omax.
Proof.
  intros Hn HE Hnorm. unfold finish.
  pose proof (pow2_pos (E + 1074) ltac:(lia)) as Hp.
  destruct (Z.eqb_spec n 0) as [->|Hn0]; [reflexivity|].
  destruct (Z.eqb_spec n (2 ^ 53)) as [->|Hn53].
  - destruct (Z.leb_spec (E + 1) 971) as [Hle|Hgt]; cbn [ord cond_Zopp];
      rewrite Omax_split.
    + assert (Hq : 2 ^ (E + 1074) <= 2 ^ 2044) by (apply pow2_le; lia).
      replace (E + 1 + 1074) with (E + 1074 + 1) by lia.
      rewrite pow2_succ by lia. change (Zpos (2 ^ 52)) with (2 ^ 52).
      change (2 ^ 2045) with (2 * 2 ^ 2044).
      change (2 ^ 53) with (2 * 2 ^ 52).
      generalize dependent (2 ^ 2044). generalize dependent (2 ^ (E + 1074)).
      intros. nia.
    + assert (Hq : 2 ^ 2045 <= 2 ^ (E + 1074)) by (apply pow2_le; lia).
      generalize dependent (2 ^ 2045). generalize dependent (2 ^ (E + 1074)).
      intros. nia.
  - destruct (Z.leb_spec E 971) as [Hle|Hgt]; cbn [ord cond_Zopp];
      rewrite Omax_split.
    + assert (Hq : 2 ^ (E + 1074) <= 2 ^ 2045) by (apply pow2_le; lia).
      rewrite Z2Pos.id by lia.
      generalize dependent (2 ^ 2045). generalize dependent (2 ^ (E + 1074)).
      intros. nia.
    + assert (Hq : 2 ^ 2046 <= 2 ^ (E + 1074)) by (apply pow2_le; lia).
      destruct (Hnorm ltac:(lia)) as [?|Hn52]; [lia|].
      change (2 ^ 2046) with (2 * 2 ^ 2045) in Hq.
      change (2 ^ 53) with (2 * 2 ^ 52) in *.
      generalize dependent (2 ^ 2045). generalize dependent (2 ^ (E + 1074)).
      intros. nia.
Qed.

Lemma finish_not_nan s n E : not_nan (finish s n E).
Proof.
  unfold finish, not_nan.
  destruct (n =? 0); [discriminate|].
  destruct (n =? 2 ^ 53); [destruct (E + 1 <=? 971); discriminate|].
  destruct (E <=? 971); discriminate.
Qed.

Lemma finish_valid s n E :
  0 <= n <= 2 ^ 53 -> -1074 <= E -> (-1074 < E -> n = 0 \/ 2 ^ 52 <= n) ->
  valid_binary (finish s n E) = true.
Proof.
  intros Hn HE Hnorm. unfold finish.
  destruct (Z.eqb_spec n 0) as [->|Hn0]; [reflexivity|].
  destruct (Z.eqb_spec n (2 ^ 53)) as [->|Hn53].
  - destruct (Z.leb_spec (E + 1) 971) as [Hle|Hgt]; [|reflexivity].
    unfold SpecFloat.valid_binary, bounded, canonical_mantissa.
    change (fexp prec emax) with fexp64. change (emax - prec) with 971.
    change (Zpos (digits2_pos (2 ^ 52))) with 53.
    apply andb_true_intro. split; [apply Z.eqb_eq; unfold fexp64|apply Z.leb_le]; lia.
  - destruct (Z.leb_spec E 971) as [Hle|Hgt]; [|reflexivity].
    unfold SpecFloat.valid_binary, bounded, canonical_mantissa.
    change (fexp prec emax) with fexp64. change (emax - prec) with 971.
    change (Zpos (digits2_pos (Z.to_pos n))) with (Zdigits2 (Zpos (Z.to_pos n))).
    rewrite Z2Pos.id by lia.
    apply andb_true_intro. split; [apply Z.eqb_eq|apply Z.leb_le; lia].
    destruct (Z.eq_dec E (-1074)) as [->|HE'].
    + assert (Zdigits2 n <= 53).
      { destruct (Z.le_gt_cases (Zdigits2 n) 53) as [|Hgt]; [assumption|].
        pose proof (Zdigits2_bounds n ltac:(lia)) as [Hlo' _].
        assert (2 ^ 53 <= 2 ^ (Zdigits2 n - 1)) by (apply pow2_le; lia). lia. }
      unfold fexp64. lia.
    + destruct (Hnorm ltac:(lia)) as [?|Hn52]; [lia|].
      rewrite (Zdigits2_unique n 53) by (simpl; lia). unfold fexp64. lia.
Qed.

Lemma RN_exact_bounds m e :
  0 < m -> e <= fexp64 (Zdigits2 m + e) ->
  let n := RN (4 * m) (fexp64 (Zdigits2 m + e) - e) in
  0 <= n <= 2 ^ 53 /\ (-1074 < fexp64 (Zdigits2 m + e) -> 2 ^ 52 <= n).
Proof.
  intros Hm He n.
  pose proof (RN_bounds m 0 (fexp64 (Zdigits2 m + e) - e) ltac:(lia) ltac:(lia))
    as [Hlo Hhi].
  rewrite Z.add_0_r in *. fold n in Hlo, Hhi.
  pose proof (truncated_lt m e ltac:(lia) He).
  assert (0 <= m / 2 ^ (fexp64 (Zdigits2 m + e) - e))
    by (apply Z.div_pos; [lia|apply pow2_pos; lia]).
  split; [lia|]. intros HE.
  pose proof (truncated_ge m e Hm He HE). lia.
Qed.

Lemma binary_round_aux_ord m e :
  0 < m -> e <= fexp64 (Zdigits2 m + e) ->
  ord (binary_round_aux prec emax false m e loc_Exact) = Z.min (rounded m e) Omax.
Proof.
  intros Hm He. rewrite binary_round_aux_finish by lia.
  cbn [loc_code]. rewrite Z.add_0_r.
  destruct (RN_exact_bounds m e Hm He) as [Hn Hnorm].
  apply finish_ord; [exact Hn|apply fexp64_ge|]. intros HE. right. auto.
Qed.

Lemma binary_round_aux_valid s m e :
  0 < m -> e <= fexp64 (Zdigits2 m + e) ->
  valid_binary (binary_round_aux prec emax s m e loc_Exact) = true.
Proof.
  intros Hm He. rewrite binary_round_aux_finish by lia.
  cbn [loc_code]. rewrite Z.add_0_r.
  destruct (RN_exact_bounds m e Hm He) as [Hn Hnorm].
  apply finish_valid; [exact Hn|apply fexp64_ge|]. intros HE. right. auto.
Qed.

Lemma rounded_nonneg m e :
  0 < m -> e <= fexp64 (Zdigits2 m + e) -> 0 <= rounded m e.
Proof.
  intros Hm He. destruct (RN_exact_bounds m e Hm He) as [Hn _].
  unfold rounded.
  pose proof (pow2_pos (fexp64 (Zdigits2 m + e) + 1074)
                ltac:(pose proof (fexp64_ge (Zdigits2 m + e)); lia)).
  nia.
Qed.

(** Rounding is monotone in the exact value; [c] is any exponent below
    both arguments, so that the two values compare as integers. *)
Lemma rounded_le m1 e1 m2 e2 c :
  0 < m1 -> 0 < m2 ->
  e1 <= fexp64 (Zdigits2 m1 + e1) -> e2 <= fexp64 (Zdigits2 m2 + e2) ->
  c <= e1 -> c <= e2 ->
  m1 * 2 ^ (e1 - c) <= m2 * 2 ^ (e2 - c) ->
  rounded m1 e1 <= rounded m2 e2.
Proof.
  intros Hm1 Hm2 He1 He2 Hc1 Hc2 Hle.
  pose proof (pow2_pos (e1 - c) ltac:(lia)) as Hp1.
  pose proof (pow2_pos (e2 - c) ltac:(lia)) as Hp2.
  assert (HD : Zdigits2 m1 + e1 <= Zdigits2 m2 + e2).
  { pose proof (Zdigits2_le (m1 * 2 ^ (e1 - c)) (m2 * 2 ^ (e2 - c))
                  ltac:(nia) Hle) as H.
    rewrite !Zdigits2_mul_pow2 in H by lia. lia. }
  pose proof (fexp64_le _ _ HD) as HE.
  pose proof (fexp64_ge (Zdigits2 m1 + e1)) as HE1.
  destruct (RN_exact_bounds m1 e1 Hm1 He1) as [Hn1 _].
  destruct (RN_exact_bounds m2 e2 Hm2 He2) as [Hn2 Hnorm2].
  unfold rounded.
  set (E1 := fexp64 (Zdigits2 m1 + e1)) in *.
  set (E2 := fexp64 (Zdigits2 m2 + e2)) in *.
  destruct (Z.eq_dec E1 E2) as [Heq|Hne].
  - rewrite <- Heq in *.
    pose proof (pow2_pos (E1 + 1074) ltac:(lia)) as HP.
    apply Z.mul_le_mono_nonneg_r; [lia|].
    rewrite <- (RN_scale (4 * m1) (E1 - e1) (e1 - c)) by lia.
    rewrite <- (RN_scale (4 * m2) (E1 - e2) (e2 - c)) by lia.
    replace (E1 - e1 + (e1 - c)) with (E1 - c) by lia.
    replace (E1 - e2 + (e2 - c)) with (E1 - c) by lia.
    apply RN_le; [lia|nia].
  - specialize (Hnorm2 ltac:(lia)).
    set (n1 := RN (4 * m1) (E1 - e1)) in *.
    set (n2 := RN (4 * m2) (E2 - e2)) in *.
    pose proof (pow2_pos (E1 + 1074) ltac:(lia)) as HP.
    assert (HP2 : 2 ^ (E1 + 1074 + 1) <= 2 ^ (E2 + 1074)) by (apply pow2_le; lia).
    rewrite pow2_succ in HP2 by lia.
    change (2 ^ 53) with (2 * 2 ^ 52) in Hn1.
    generalize dependent (2 ^ (E2 + 1074)). generalize dependent (2 ^ (E1 + 1074)).
    generalize dependent (2 ^ 52). intros. nia.
Qed.

(** *** Alignment and [binary_round] *)

Lemma pos_iter_xO m d : Zpos (Pos.iter xO m d) = Zpos m * 2 ^ Zpos d.
Proof.
  induction d as [|d IH] using Pos.peano_ind.
  - simpl. lia.
  - rewrite Pos.iter_succ, Pos2Z.inj_succ, Z.pow_succ_r by lia.
    rewrite Pos2Z.inj_xO, IH. lia.
Qed.

Lemma shl_align_spec mx ex ex' :
  snd (shl_align mx ex ex') = Z.min ex ex' /\
  Zpos (fst (shl_align mx ex ex')) = Zpos mx * 2 ^ (ex - Z.min ex ex').
Proof.
  unfold shl_align. destruct (ex' - ex) as [|d|d] eqn:Hd; cbn [fst snd].
  - replace (Z.min ex ex') with ex by lia. rewrite Z.sub_diag. simpl. lia.
  - replace (Z.min ex ex') with ex by lia. rewrite Z.sub_diag. simpl. lia.
  - replace (Z.min ex ex') with ex' by lia.
    replace (ex - ex') with (Zpos d) by lia. split; [reflexivity|apply pos_iter_xO].
Qed.

(** [binary_round] is [binary_round_aux] on an aligned mantissa of the same
    value. *)
Lemma binary_round_aligned s m e :
  exists mz ez,
    binary_round prec emax s m e
      = binary_round_aux prec emax s (Zpos mz) ez loc_Exact /\
    ez <= fexp64 (Zdigits2 (Zpos mz) + ez) /\
    ez = Z.min e (fexp64 (Zdigits2 (Zpos m) + e)) /\
    Zpos mz = Zpos m * 2 ^ (e - ez).
Proof.
  unfold binary_round. change (fexp prec emax) with fexp64.
  change (Zpos (digits2_pos m)) with (Zdigits2 (Zpos m)).
  set (E := fexp64 (Zdigits2 (Zpos m) + e)).
  pose proof (shl_align_spec m e E) as [H1 H2].
  destruct (shl_align m e E) as [mz ez]. cbn [fst snd] in *.
  exists mz, ez. split; [reflexivity|]. split; [|split; [exact H1|rewrite H2, H1; reflexivity]].
  rewrite H2, Zdigits2_mul_pow2 by lia.
  replace (Zdigits2 (Zpos m) + (e - Z.min e E) + ez) with (Zdigits2 (Zpos m) + e) by lia.
  fold E. lia.
Qed.

Lemma binary_round_not_nan s m e : not_nan (binary_round prec emax s m e).
Proof.
  destruct (binary_round_aligned s m e) as (mz & ez & -> & He & _).
  rewrite binary_round_aux_finish by lia. apply finish_not_nan.
Qed.

Lemma binary_round_valid s m e : valid_binary (binary_round prec emax s m e) = true.
Proof.
  destruct (binary_round_aligned s m e) as (mz & ez & -> & He & _).
  apply binary_round_aux_valid; [lia|exact He].
Qed.

Lemma binary_round_nonneg m e : 0 <= ord (binary_round prec emax false m e).
Proof.
  destruct (binary_round_aligned false m e) as (mz & ez & -> & He & _).
  rewrite binary_round_aux_ord by (try exact He; lia).
  pose proof (rounded_nonneg (Zpos mz) ez ltac:(lia) He). pose proof Omax_pos. lia.
Qed.

Lemma binary_round_le m1 e1 m2 e2 c :
  c <= e1 -> c <= e2 ->
  Zpos m1 * 2 ^ (e1 - c) <= Zpos m2 * 2 ^ (e2 - c) ->
  ord (binary_round prec emax false m1 e1) <= ord (binary_round prec emax false m2 e2).
Proof.
  intros Hc1 Hc2 Hle.
  destruct (binary_round_aligned false m1 e1) as (mz1 & ez1 & -> & He1 & Hz1 & Hm1).
  destruct (binary_round_aligned false m2 e2) as (mz2 & ez2 & -> & He2 & Hz2 & Hm2).
  rewrite !binary_round_aux_ord by (try assumption; lia).
  apply Z.min_le_compat_r.
  pose proof (fexp64_ge (Zdigits2 (Zpos m1) + e1)).
  pose proof (fexp64_ge (Zdigits2 (Zpos m2) + e2)).
  apply (rounded_le _ _ _ _ (Z.min c (-1074))); try assumption; try lia.
  rewrite Hm1, Hm2, <- !Z.mul_assoc, <- !Z.pow_add_r by lia.
  replace (e1 - ez1 + (ez1 - Z.min c (-1074))) with ((e1 - c) + (c - Z.min c (-1074))) by lia.
  replace (e2 - ez2 + (ez2 - Z.min c (-1074))) with ((e2 - c) + (c - Z.min c (-1074))) by lia.
  rewrite !Z.pow_add_r, !Z.mul_assoc by lia.
  apply Z.mul_le_mono_nonneg_r; [|exact Hle].
  pose proof (pow2_pos (c - Z.min c (-1074)) ltac:(lia)). lia.
Qed.

(** *** Multiplication *)

Lemma Zdigits2_mul_ge a b :
  0 < a -> 0 < b -> Zdigits2 a + Zdigits2 b - 1 <= Zdigits2 (a * b).
Proof.
  intros Ha Hb.
  pose proof (Zdigits2_bounds a Ha) as [Hla _].
  pose proof (Zdigits2_bounds b Hb) as [Hlb _].
  pose proof (Zdigits2_bounds (a * b) ltac:(nia)) as [_ Hhi].
  pose proof (Zdigits2_pos a Ha). pose proof (Zdigits2_pos b Hb).
  destruct (Z.le_gt_cases (Zdigits2 a + Zdigits2 b - 1) (Zdigits2 (a * b)))
    as [|Hgt]; [assumption|].
  assert (H2 : 2 ^ Zdigits2 (a * b) <= 2 ^ ((Zdigits2 a - 1) + (Zdigits2 b - 1)))
    by (apply pow2_le; lia).
  rewrite Z.pow_add_r in H2 by lia.
  pose proof (pow2_pos (Zdigits2 a - 1) ltac:(lia)).
  pose proof (pow2_pos (Zdigits2 b - 1) ltac:(lia)).
  nia.
Qed.

Lemma mul_aligned mx ex my ey :
  valid_binary (S754_finite false mx ex) = true ->
  valid_binary (S754_finite false my ey) = true ->
  ex + ey <= fexp64 (Zdigits2 (Zpos mx * Zpos my) + (ex + ey)).
Proof.
  intros Hx Hy.
  apply valid_finite in Hx as (_ & _ & _ & Hx).
  apply valid_finite in Hy as (_ & _ & _ & Hy).
  pose proof (Zdigits2_mul_ge (Zpos mx) (Zpos my) ltac:(lia) ltac:(lia)).
  pose proof (Zdigits2_pos (Zpos mx) ltac:(lia)).
  pose proof (Zdigits2_pos (Zpos my) ltac:(lia)).
  unfold fexp64 in *. lia.
Qed.

Lemma SFmul_finite_le mx ex mx' ex' my ey :
  valid_binary (S754_finite false mx ex) = true ->
  valid_binary (S754_finite false mx' ex') = true ->
  valid_binary (S754_finite false my ey) = true ->
  ord (S754_finite false mx ex) <= ord (S754_finite false mx' ex') ->
  ord (SF64mul (S754_finite false mx ex) (S754_finite false my ey)) <=
  ord (SF64mul (S754_finite false mx' ex') (S754_finite false my ey)).
Proof.
  intros Hx Hx' Hy Hle. cbn [ord cond_Zopp] in Hle.
  unfold SF64mul, SFmul. cbn [xorb]. rewrite !Pos2Z.inj_mul.
  pose proof (mul_aligned _ _ _ _ Hx Hy) as Ha.
  pose proof (mul_aligned _ _ _ _ Hx' Hy) as Ha'.
  rewrite !binary_round_aux_ord by (try assumption; lia).
  apply Z.min_le_compat_r.
  apply valid_finite in Hx as ((? & _) & _).
  apply valid_finite in Hx' as ((? & _) & _).
  apply (rounded_le _ _ _ _ (-1074 + ey)); try assumption; try lia.
  replace (ex + ey - (-1074 + ey)) with (ex + 1074) by lia.
  replace (ex' + ey - (-1074 + ey)) with (ex' + 1074) by lia.
  nia.
Qed.

(** *** Shapes of non-negative and positive numbers *)

Lemma ord_range x : valid_binary x = true -> - Omax <= ord x <= Omax.
Proof.
  intros Hx. pose proof Omax_pos.
  destruct x as [s|s| |s m e]; cbn [ord]; try lia.
  - destruct s; cbn [cond_Zopp]; lia.
  - pose proof (ord_finite_bounds m e ltac:(destruct s; exact Hx)).
    destruct s; cbn [cond_Zopp]; lia.
Qed.

Lemma nonneg_shape_intro x :
  valid_binary x = true -> not_nan x -> 0 <= ord x -> nonneg_shape x.
Proof.
  intros Hx Hn Ho. pose proof Omax_pos.
  destruct x as [s|[]| |[] m e]; try constructor; try congruence.
  - cbn [ord cond_Zopp] in Ho. lia.
  - pose proof (ord_finite_bounds m e Hx). cbn [ord cond_Zopp] in Ho. lia.
Qed.

Lemma SFmul_le X X' Y :
  valid_binary X = true -> valid_binary X' = true -> valid_binary Y = true ->
  not_nan X -> not_nan X' -> not_nan Y ->
  0 <= ord X <= ord X' -> 0 < ord Y ->
  ord Y < Omax \/ 0 < ord X ->
  not_nan (SF64mul X Y) /\ not_nan (SF64mul X' Y) /\
  0 <= ord (SF64mul X Y) <= ord (SF64mul X' Y).
Proof.
  intros HX HX' HY HnX HnX' HnY [H0 Hle] HposY Hcase. pose proof Omax_pos as HO.
  pose proof (nonneg_shape_intro X HX HnX H0) as SX.
  pose proof (nonneg_shape_intro X' HX' HnX' ltac:(lia)) as SX'.
  pose proof (nonneg_shape_intro Y HY HnY ltac:(lia)) as SY.
  destruct SY as [sy|my ey|]; [simpl in HposY; lia| |].
  - (* a finite multiplier *)
    assert (Hnn : forall m e, valid_binary (S754_finite false m e) = true ->
              not_nan (SF64mul (S754_finite false m e) (S754_finite false my ey)) /\
              0 <= ord (SF64mul (S754_finite false m e) (S754_finite false my ey))).
    { intros m e Hv. unfold SF64mul, SFmul. cbn [xorb].
      pose proof (mul_aligned _ _ _ _ Hv HY) as Ha. rewrite Pos2Z.inj_mul.
      split.
      - rewrite binary_round_aux_finish by lia. apply finish_not_nan.
      - rewrite binary_round_aux_ord by (try assumption; lia).
        pose proof (rounded_nonneg (Zpos m * Zpos my) (e + ey) ltac:(lia) Ha). lia. }
    destruct SX as [sx|mx ex|]; destruct SX' as [sx'|mx' ex'|].
    + unfold SF64mul. cbn [SFmul xorb ord].
      split; [discriminate|split; [discriminate|lia]].
    + destruct (Hnn _ _ HX') as [Hn Ho].
      change (SF64mul (S754_zero sx) (S754_finite false my ey))
        with (S754_zero (xorb sx false)).
      split; [discriminate|split; [exact Hn|cbn [ord]; lia]].
    + unfold SF64mul. cbn [SFmul xorb ord cond_Zopp].
      split; [discriminate|split; [discriminate|lia]].
    + pose proof (ord_finite_bounds _ _ HX). cbn [ord cond_Zopp] in Hle. lia.
    + destruct (Hnn _ _ HX) as [Hn Ho]. destruct (Hnn _ _ HX') as [Hn' _].
      split; [exact Hn|split; [exact Hn'|split; [exact Ho|]]].
      apply SFmul_finite_le; assumption.
    + destruct (Hnn _ _ HX) as [Hn Ho].
      split; [exact Hn|split; [discriminate|split; [exact Ho|]]].
      change (SF64mul (S754_infinity false) (S754_finite false my ey))
        with (S754_infinity false).
      unfold SF64mul, SFmul. cbn [xorb]. rewrite Pos2Z.inj_mul.
      pose proof (mul_aligned _ _ _ _ HX HY) as Ha.
      rewrite binary_round_aux_ord by (try assumption; lia).
      cbn [ord cond_Zopp]. lia.
    + cbn [ord cond_Zopp] in Hle. lia.
    + pose proof (ord_finite_bounds _ _ HX'). cbn [ord cond_Zopp] in Hle. lia.
    + unfold SF64mul. cbn [SFmul xorb ord cond_Zopp].
      split; [discriminate|split; [discriminate|lia]].
  - (* an infinite multiplier *)
    destruct Hcase as [Hfin|HposX]; [cbn [ord cond_Zopp] in Hfin; lia|].
    destruct SX as [sx|mx ex|]; destruct SX' as [sx'|mx' ex'|];
      cbn [ord cond_Zopp] in *; try lia;
      try (pose proof (ord_finite_bounds _ _ HX'); lia);
      unfold SF64mul; cbn [SFmul xorb ord cond_Zopp];
      (split; [discriminate|split; [discriminate|lia]]).
Qed.

(** *** Comparisons of primitive floats *)

Local Open Scope float_scope.

Lemma SFcompare_nan X Y :
  X = S754_nan \/ Y = S754_nan -> SFcompare X Y = None.
Proof.
  intros [-> | ->]; [reflexivity|]. destruct X as [|[]| |[]]; reflexivity.
Qed.

Lemma nan_or_not X : X = S754_nan \/ not_nan X.
Proof. destruct X; try (right; discriminate). left. reflexivity. Qed.

Lemma SFleb_ord X Y :
  valid_binary X = true -> valid_binary Y = true ->
  SFleb X Y = true <-> not_nan X /\ not_nan Y /\ (ord X <= ord Y)%Z.
Proof.
  intros HX HY. unfold SFleb.
  destruct (nan_or_not X) as [EX|NX].
  { rewrite SFcompare_nan by auto. split; [discriminate|]. intros (H & _). contradiction. }
  destruct (nan_or_not Y) as [EY|NY].
  { rewrite SFcompare_nan by auto. split; [discriminate|]. intros (_ & H & _). contradiction. }
  rewrite SFcompare_ord by assumption.
  destruct (Z.compare_spec (ord X) (ord Y)) as [H|H|H]; split;
    try discriminate; try (intros _; repeat split; try assumption; lia);
    try reflexivity.
  intros (_ & _ & H'). lia.
Qed.

Lemma SFltb_ord X Y :
  valid_binary X = true -> valid_binary Y = true ->
  SFltb X Y = true <-> not_nan X /\ not_nan Y /\ (ord X < ord Y)%Z.
Proof.
  intros HX HY. unfold SFltb.
  destruct (nan_or_not X) as [EX|NX].
  { rewrite SFcompare_nan by auto. split; [discriminate|]. intros (H & _). contradiction. }
  destruct (nan_or_not Y) as [EY|NY].
  { rewrite SFcompare_nan by auto. split; [discriminate|]. intros (_ & H & _). contradiction. }
  rewrite SFcompare_ord by assumption.
  destruct (Z.compare_spec (ord X) (ord Y)) as [H|H|H]; split;
    try discriminate; try (intros _; repeat split; try assumption; lia);
    try reflexivity; intros (_ & _ & H'); lia.
Qed.

Lemma leb_ord x y :
  (x <=? y) = true <->
  not_nan (Prim2SF x) /\ not_nan (Prim2SF y) /\
  (ord (Prim2SF x) <= ord (Prim2SF y))%Z.
Proof. rewrite leb_spec. apply SFleb_ord; apply Prim2SF_valid. Qed.

Lemma ltb_ord x y :
  (x <? y) = true <->
  not_nan (Prim2SF x) /\ not_nan (Prim2SF y) /\
  (ord (Prim2SF x) < ord (Prim2SF y))%Z.
Proof. rewrite ltb_spec. apply SFltb_ord; apply Prim2SF_valid. Qed.

Lemma Prim2SF_0 : Prim2SF 0 = S754_zero false.
Proof. reflexivity. Qed.

Lemma Prim2SF_infinity : Prim2SF infinity = S754_infinity false.
Proof. reflexivity. Qed.

(** Multiplication by a positive number is monotone on non-negative
    numbers; [0 * infinity] is excluded. *)
Lemma mul_le_mono_r x x' y :
  (0 <=? x) = true -> (x <=? x') = true -> (0 <? y) = true ->
  (y <? infinity) = true \/ (0 <? x) = true ->
  (0 <=? x * y) = true /\ (x * y <=? x' * y) = true.
Proof.
  rewrite !leb_ord, !ltb_ord, !mul_spec, Prim2SF_0, Prim2SF_infinity.
  cbn [ord cond_Zopp].
  intros (_ & Nx & H0) (_ & Nx' & Hle) (_ & Ny & Hy) Hcase.
  destruct (SFmul_le (Prim2SF x) (Prim2SF x') (Prim2SF y)) as (N1 & N2 & Ho1 & Ho2);
    try apply Prim2SF_valid; try assumption; try lia.
  repeat split; try assumption; try discriminate.
Qed.

Lemma SFmul_comm X Y : SF64mul X Y = SF64mul Y X.
Proof.
  unfold SF64mul.
  destruct X as [sx|sx| |sx mx ex], Y as [sy|sy| |sy my ey]; cbn [SFmul];
    rewrite ?(xorb_comm sx sy); try reflexivity.
  rewrite (Pos.mul_comm mx my), (Z.add_comm ex ey). reflexivity.
Qed.

Lemma mul_comm x y : x * y = y * x.
Proof. apply Prim2SF_inj. rewrite !mul_spec. apply SFmul_comm. Qed.

Lemma mul_le_mono_l x x' y :
  (0 <=? x) = true -> (x <=? x') = true -> (0 <? y) = true ->
  (y <? infinity) = true \/ (0 <? x) = true ->
  (0 <=? y * x) = true /\ (y * x <=? y * x') = true.
Proof. rewrite !(mul_comm y). apply mul_le_mono_r. Qed.
(** *** Subtraction *)

Local Open Scope Z_scope.

Lemma nearest_le V1 V2 : 0 < V1 -> V1 <= V2 -> nearest V1 <= nearest V2.
Proof.
  intros H1 H12. unfold nearest.
  apply (binary_round_le _ _ _ _ (-1074)); lia.
Qed.

Lemma binary_round_nearest m e :
  -1074 <= e ->
  ord (binary_round prec emax false m e) = nearest (Zpos m * 2 ^ (e + 1074)).
Proof.
  intros He. unfold nearest.
  pose proof (pow2_pos (e + 1074) ltac:(lia)) as Hp.
  assert (Hv : Zpos (Z.to_pos (Zpos m * 2 ^ (e + 1074))) * 2 ^ (-1074 - -1074)
               = Zpos m * 2 ^ (e - -1074)).
  { rewrite Z2Pos.id by nia. change (-1074 - -1074) with 0.
    replace (e - -1074) with (e + 1074) by lia. simpl (2 ^ 0). lia. }
  apply Z.le_antisymm; apply (binary_round_le _ _ _ _ (-1074)); lia.
Qed.

(** A representable number rounds to itself. *)
Lemma binary_round_id m e :
  valid_binary (S754_finite false m e) = true ->
  binary_round prec emax false m e = S754_finite false m e.
Proof.
  intros Hv. pose proof (valid_finite _ _ _ Hv) as ((He1 & He2) & Hm & _ & Hc).
  destruct (binary_round_aligned false m e) as (mz & ez & -> & Ha & Hz & Hmz).
  rewrite <- Hc in Hz. rewrite Z.min_id in Hz. subst ez.
  rewrite Z.sub_diag in Hmz. simpl (2 ^ 0) in Hmz. rewrite Z.mul_1_r in Hmz.
  injection Hmz as ->.
  rewrite binary_round_aux_finish by (try lia; rewrite <- Hc; lia).
  rewrite <- Hc, Z.sub_diag. cbn [loc_code]. rewrite Z.add_0_r.
  unfold RN. rewrite sticky_shift_0, rne4_exact. unfold finish.
  destruct (Z.eqb_spec (Zpos m) 0); [lia|].
  destruct (Z.eqb_spec (Zpos m) (2 ^ 53)); [lia|].
  destruct (Z.leb_spec e 971); [reflexivity|lia].
Qed.

Lemma nearest_id m e :
  valid_binary (S754_finite false m e) = true ->
  nearest (ord (S754_finite false m e)) = ord (S754_finite false m e).
Proof.
  intros Hv. pose proof (valid_finite _ _ _ Hv) as ((He1 & _) & _).
  cbn [ord cond_Zopp]. rewrite <- binary_round_nearest by lia.
  rewrite binary_round_id by assumption. reflexivity.
Qed.

Lemma binary_round_neg_ord m e : ord (binary_round prec emax true m e) <= 0.
Proof.
  destruct (binary_round_aligned true m e) as (mz & ez & -> & Ha & _).
  rewrite binary_round_aux_finish by lia. unfold finish.
  pose proof Omax_pos.
  destruct (_ =? 0); [simpl; lia|].
  destruct (_ =? 2 ^ 53).
  - destruct (_ <=? 971); cbn [ord cond_Zopp]; [|lia].
    pose proof (pow2_pos (fexp64 (Zdigits2 (Zpos mz) + ez) + 1 + 1074)
                  ltac:(pose proof (fexp64_ge (Zdigits2 (Zpos mz) + ez)); lia)).
    lia.
  - destruct (_ <=? 971); cbn [ord cond_Zopp]; [|lia].
    pose proof (pow2_pos (fexp64 (Zdigits2 (Zpos mz) + ez) + 1074)
                  ltac:(pose proof (fexp64_ge (Zdigits2 (Zpos mz) + ez)); lia)).
    lia.
Qed.

Lemma aligned_units s m e ez :
  -1074 <= ez -> ez <= e ->
  cond_Zopp s (Zpos m * 2 ^ (e - ez)) * 2 ^ (ez + 1074)
  = cond_Zopp s (Zpos m * 2 ^ (e + 1074)).
Proof.
  intros H1 H2. replace (e + 1074) with ((e - ez) + (ez + 1074)) by lia.
  rewrite (Z.pow_add_r 2 (e - ez) (ez + 1074)) by lia.
  destruct s; cbn [cond_Zopp]; ring.
Qed.

(** The difference [A - Y] of a finite [A], by the sign of the exact
    difference [V]. *)
Lemma SFsub_ord sa ma ea Y :
  valid_binary (S754_finite sa ma ea) = true -> valid_binary Y = true ->
  not_nan Y ->
  let R := SF64sub (S754_finite sa ma ea) Y in
  let V := ord (S754_finite sa ma ea) - ord Y in
  not_nan R /\
  (V <= 0 -> ord R <= 0) /\
  (0 < V -> Y <> S754_infinity true -> ord R = nearest V) /\
  (Y = S754_infinity true -> ord R = Omax).
Proof.
  intros HA HY NY R V. pose proof Omax_pos as HO.
  assert (HA' : valid_binary (S754_finite false ma ea) = true)
    by (destruct sa; exact HA).
  pose proof (ord_finite_bounds _ _ HA') as HAb.
  destruct Y as [sy|sy| |sy my ey]; [| |congruence|].
  - (* zero *)
    subst R V. unfold SF64sub. cbn [SFsub ord]. rewrite Z.sub_0_r.
    split; [discriminate|]. split; [auto|]. split; [|discriminate].
    intros HV _. destruct sa; cbn [ord cond_Zopp] in *; [lia|].
    symmetry. apply (nearest_id ma ea HA').
  - (* infinity *)
    subst R V. unfold SF64sub. cbn [SFsub].
    split; [discriminate|]. destruct sy; cbn [negb ord cond_Zopp].
    + split; [destruct sa; cbn [cond_Zopp]; lia|]. split; [congruence|reflexivity].
    + split; [lia|]. split; [|discriminate].
      destruct sa; cbn [cond_Zopp]; lia.
  - (* finite *)
    assert (HY' : valid_binary (S754_finite false my ey) = true)
      by (destruct sy; exact HY).
    pose proof (valid_finite _ _ _ HA') as ((Hea & _) & _).
    pose proof (valid_finite _ _ _ HY') as ((Hey & _) & _).
    subst R. unfold SF64sub. cbn [SFsub].
    set (ez := Z.min ea ey).
    destruct (shl_align_spec ma ea ez) as [_ Hfa].
    destruct (shl_align_spec my ey ez) as [_ Hfy].
    replace (Z.min ea ez) with ez in Hfa by lia.
    replace (Z.min ey ez) with ez in Hfy by lia.
    rewrite Hfa, Hfy.
    set (N := cond_Zopp sa (Zpos ma * 2 ^ (ea - ez))
              - cond_Zopp sy (Zpos my * 2 ^ (ey - ez))).
    assert (HN : N * 2 ^ (ez + 1074) = V).
    { unfold N, V. rewrite Z.mul_sub_distr_r, !aligned_units by lia. reflexivity. }
    pose proof (pow2_pos (ez + 1074) ltac:(lia)) as Hp.
    destruct N as [|p|p] eqn:EN; cbn [binary_normalize].
    + split; [discriminate|]. split; [simpl; lia|]. split; [lia|discriminate].
    + split; [apply binary_round_not_nan|]. split; [lia|]. split; [|discriminate].
      intros _ _. rewrite binary_round_nearest by lia. rewrite HN. reflexivity.
    + split; [apply binary_round_not_nan|].
      split; [intros _; apply binary_round_neg_ord|]. split; [lia|discriminate].
Qed.

Local Open Scope float_scope.

(** Subtracting a larger number from a finite one gives no more, as long
    as the smaller difference is positive. *)
Lemma sub_le_mono_l a x x' :
  is_finite a = true -> is_zero a = false ->
  (x <? x') = true -> (0 <? a - x') = true ->
  (a - x' <=? a - x) = true.
Proof.
  intros Hfin Hnz. rewrite ltb_ord, leb_ord, ltb_ord, !sub_spec, Prim2SF_0.
  cbn [ord].
  intros (Nx & Nx' & Hlt) (_ & _ & Hpos).
  pose proof (Prim2SF_valid a) as Va. pose proof (Prim2SF_valid x) as Vx.
  pose proof (Prim2SF_valid x') as Vx'. pose proof Omax_pos as HO.
  destruct (Prim2SF a) as [sa|sa| |sa ma ea] eqn:Ea.
  - exfalso. revert Hnz. unfold is_zero. rewrite eqb_spec, Ea.
    destruct sa; discriminate.
  - exfalso. revert Hfin. unfold is_finite, is_infinity, is_nan.
    rewrite !eqb_spec, abs_spec, Ea. destruct sa; discriminate.
  - exfalso. revert Hfin. unfold is_finite, is_nan. rewrite !eqb_spec, Ea.
    discriminate.
  - destruct (SFsub_ord sa ma ea (Prim2SF x) Va Vx Nx) as (N1 & _ & H1 & H1i).
    destruct (SFsub_ord sa ma ea (Prim2SF x') Va Vx' Nx') as (N2 & H2n & H2 & _).
    pose proof (ord_range _ Vx) as Rx.
    assert (Hx' : Prim2SF x' <> S754_infinity true).
    { intros E. rewrite E in Hlt. cbn [ord cond_Zopp] in Hlt. lia. }
    assert (HV2 : (0 < ord (S754_finite sa ma ea) - ord (Prim2SF x'))%Z) by lia.
    split; [exact N2|]. split; [exact N1|].
    rewrite (H2 HV2 Hx').
    destruct (nan_or_not (Prim2SF x)) as [E|_]; [contradiction|].
    assert (Hcases : Prim2SF x = S754_infinity true \/ Prim2SF x <> S754_infinity true).
    { destruct (Prim2SF x) as [|[]| |]; try (right; discriminate). left. reflexivity. }
    destruct Hcases as [E|NE].
    + rewrite (H1i E). unfold nearest.
      pose proof (ord_range _ (binary_round_valid false
        (Z.to_pos (ord (S754_finite sa ma ea) - ord (Prim2SF x'))) (-1074))). lia.
    + rewrite (H1 ltac:(lia) NE). apply nearest_le; lia.
Qed.

End B64.

Import B64.

(** ** The loop computes [month_rows] and the running sums *)

Section Loop.

Local Open Scope float_scope.

Lemma bind_Ok_inv {A B : Type} (r : result A) (k : A -> result B) (b : B) :
  bind r k = Ok b -> exists x, r = Ok x /\ k x = Ok b.
Proof.
  destruct r as [x|e]; simpl; intros H; [exists x; auto | discriminate].
Qed.

Lemma months_loop_rows K i rows st :
  months_loop K i rows st =
  (rs <- month_rows K i rows ;;
   Ok {| Q_total := running_sum (Q_total st) (map Qm_kWh rs);
         P_total := running_sum (P_total st) (map Pm_kWh rs);
         monthly_data := monthly_data st ++ rs |}).
Proof.
  revert i st. induction rows as [|[[Tenv Tout] dys] rows IH]; intros i st.
  - simpl. rewrite app_nil_r. destruct st; reflexivity.
  - simpl. destruct (month_step K i Tenv Tout dys) as [r|e]; simpl; [|reflexivity].
    rewrite IH. destruct (month_rows K (S i) rows) as [rs|e]; simpl; [|reflexivity].
    rewrite <- app_assoc. reflexivity.
Qed.

Lemma month_rows_length K i rows rs :
  month_rows K i rows = Ok rs -> length rs = length rows.
Proof.
  revert i rs. induction rows as [|[[Tenv Tout] dys] rows IH]; intros i rs; simpl.
  - intros H. injection H as <-. reflexivity.
  - intros H. apply bind_Ok_inv in H as (r & _ & H).
    apply bind_Ok_inv in H as (rs' & Hrs & H). injection H as <-.
    simpl. f_equal. eapply IH, Hrs.
Qed.

Lemma month_rows_nth K i rows rs :
  month_rows K i rows = Ok rs ->
  forall j m, nth_error rs j = Some m ->
  exists Tenv Tout dys,
    nth_error rows j = Some (Tenv, Tout, dys) /\
    month_step K (i + j) Tenv Tout dys = Ok m.
Proof.
  revert i rs. induction rows as [|[[Tenv Tout] dys] rows IH]; intros i rs; simpl.
  - intros H. injection H as <-. intros [|j] m Hm; discriminate.
  - intros H. apply bind_Ok_inv in H as (r & Hr & H).
    apply bind_Ok_inv in H as (rs' & Hrs & H). injection H as <-.
    intros [|j] m Hm; simpl in Hm.
    + injection Hm as <-. exists Tenv, Tout, dys. rewrite Nat.add_0_r. auto.
    + destruct (IH _ _ Hrs j m Hm) as (Te & To & dd & Hn & Hs).
      exists Te, To, dd. split; [exact Hn|].
      rewrite Nat.add_succ_r. exact Hs.
Qed.

(** What a successful call has computed. *)
Lemma calculate_scop_Ok env out dys n_units area q_H T_out s r :
  calculate_scop env out dys n_units area q_H T_out = Ok (s, r) ->
  exists P Km rs,
    P_hmax_design T_out = Ok P /\
    heat_transfer_K P n_units area q_H = Ok Km /\
    month_rows (fst Km) 0 (zip3 env out dys) = Ok rs /\
    scop_ratio (float_sum (map Qm_kWh rs)) (float_sum (map Pm_kWh rs)) = Ok s /\
    r = {| K := fst Km;
           Q_total_kWh := float_sum (map Qm_kWh rs);
           P_total_kWh := float_sum (map Pm_kWh rs);
           SCOP := s;
           monthly := rs |}.
Proof.
  unfold calculate_scop. intros H.
  apply bind_Ok_inv in H as (P & HP & H).
  apply bind_Ok_inv in H as (Km & HK & H).
  rewrite months_loop_rows in H.
  apply bind_Ok_inv in H as (st & Hst & H).
  apply bind_Ok_inv in Hst as (rs & Hrs & Hst).
  injection Hst as <-. simpl in H.
  apply bind_Ok_inv in H as (s' & Hs & H).
  injection H as <- <-.
  exists P, Km, rs. repeat split; auto.
Qed.

End Loop.

(** ** Comparisons with zero in binary64 *)

Section ZeroComparisons.

Local Open Scope float_scope.

Lemma Prim2SF_zero : Prim2SF 0 = S754_zero false.
Proof. reflexivity. Qed.

Lemma pos_not_zero x : (0 <? x) = true -> is_zero x = false.
Proof.
  unfold is_zero. rewrite ltb_spec, eqb_spec.
  change (Prim2SF zero) with (S754_zero false). rewrite Prim2SF_zero.
  destruct (Prim2SF x) as [[]|[]| |[] m e]; cbv; congruence.
Qed.

Lemma zero_not_pos x : (x =? 0) = true -> (0 <? x) = false.
Proof.
  rewrite ltb_spec, eqb_spec, Prim2SF_zero.
  destruct (Prim2SF x) as [[]|[]| |[] m e]; cbv; congruence.
Qed.

Lemma pos_not_le_zero x : (0 <? x) = true -> (x <=? 0) = false.
Proof.
  rewrite ltb_spec, leb_spec, Prim2SF_zero.
  destruct (Prim2SF x) as [[]|[]| |[] m e]; cbv; congruence.
Qed.

Lemma scop_ratio_pos Q P :
  (0 <? P) = true -> scop_ratio Q P = Ok (Q / P).
Proof.
  intros H. unfold scop_ratio, fdiv. rewrite H, (pos_not_zero _ H). reflexivity.
Qed.

Lemma scop_ratio_not_pos Q P :
  (0 <? P) = false -> scop_ratio Q P = Ok nan.
Proof. intros H. unfold scop_ratio. rewrite H. reflexivity. Qed.

(** The final ratio never raises: the division is guarded by [P_total > 0]. *)
Lemma scop_ratio_total Q P : exists s, scop_ratio Q P = Ok s.
Proof.
  destruct (0 <? P) eqn:H.
  - eexists. apply scop_ratio_pos, H.
  - eexists. apply scop_ratio_not_pos, H.
Qed.

End ZeroComparisons.

(** ** The reference calls return *)

Lemma reference_call_Ok : reference_call = Ok reference_result.
Proof. vm_compute. reflexivity. Qed.

Lemma warm_call_Ok : warm_call = Ok warm_result.
Proof. vm_compute. reflexivity. Qed.

(** ** The undefined SCOP *)

Section UndefinedScop.

Local Open Scope float_scope.

(** C1, as stated, fails.  In the season with one warm month the total
    electricity is zero and the SCOP field of the returned result is the
    binary64 not-a-number itself: the code stores [float('nan')], there is no
    separate variant. *)
Lemma warm_season_scop_is_native_nan :
  warm_call = Ok warm_result /\
  P_total_kWh (snd warm_result) = 0 /\
  SCOP (snd warm_result) = nan /\
  is_nan (SCOP (snd warm_result)) = true.
Proof. vm_compute. auto. Qed.

(** C1, amended.  When the total electricity consumed is zero, the SCOP field
    of the result (and the first component of the returned pair) is the float
    not-a-number [float('nan')]; a caller tells it from a number only by a
    NaN test. *)
Theorem zero_electricity_scop_is_nan env out dys n_units area q_H T_out s r :
  calculate_scop env out dys n_units area q_H T_out = Ok (s, r) ->
  (P_total_kWh r =? 0) = true ->
  SCOP r = nan /\ s = nan /\ is_nan (SCOP r) = true.
Proof.
  intros H Hz.
  apply calculate_scop_Ok in H as (P & Km & rs & _ & _ & _ & Hs & ->).
  simpl in *. rewrite (scop_ratio_not_pos _ _ (zero_not_pos _ Hz)) in Hs.
  injection Hs as <-. auto.
Qed.

Lemma zero_electricity_scop_is_nan_witness :
  warm_call = Ok warm_result /\
  (P_total_kWh (snd warm_result) =? 0) = true /\
  SCOP (snd warm_result) = nan /\ fst warm_result = nan /\
  is_nan (SCOP (snd warm_result)) = true.
Proof.
  split; [exact warm_call_Ok|]. split; [reflexivity|].
  apply (zero_electricity_scop_is_nan [Float 25.0] [Float 40.0] [Int 30]
           (Some (Int 21)) None None T_out_design_default
           (fst warm_result) (snd warm_result)).
  - exact warm_call_Ok.
  - reflexivity.
Defined.

End UndefinedScop.

(** ** The sizing parameters *)

Section Sizing.

Local Open Scope float_scope.


(** C2, as stated, fails.  The reference call with the unit count 21 and, in
    addition, the area 67000 and the index 25 returns a result, computed by
    the unit-count method. *)
Lemma both_groups_supplied_returns :
  calculate_scop env_temps out_temps days_in_month
    (Some (Int 21)) (Some (Int 67000)) (Some (Int 25)) T_out_design_default
  = Ok reference_result /\
  K (snd reference_result) = 186.13280811176475.
Proof. vm_compute. auto. Qed.

(** C2, amended.  The two groups are tried in order: when [n_units] is
    given, the unit-count method is used and [area] and [q_H] are ignored,
    whatever they are; the call behaves like the call without them. *)
Theorem unit_count_takes_precedence env out dys n area q_H T_out :
  calculate_scop env out dys (Some n) area q_H T_out =
  calculate_scop env out dys (Some n) None None T_out.
Proof. reflexivity. Qed.



End Sizing.

(** ** Runtime faults inside the monthly loop *)

Section LoopFaults.

Local Open Scope float_scope.

(** C3.  The sizing check passes on each of these inputs, and the loop then
    raises: a monthly COP of exactly zero makes [Qm / COP_m] raise
    ZeroDivisionError, a seventh month has no name in the table of line 52,
    and the square of a large temperature raises OverflowError. *)
Theorem monthly_loop_faults :
  calculate_scop [Float 0.0] [Float 94.637362637362628] [Int 30]
    (Some (Int 21)) None None T_out_design_default
    = Raise ZeroDivisionError /\
  calculate_scop (env_temps ++ [Float 10.0]) (out_temps ++ [Float 40.0])
    (days_in_month ++ [Int 31])
    (Some (Int 21)) None None T_out_design_default
    = Raise IndexError /\
  calculate_scop [Float 1e200] [Float 40.0] [Int 30]
    (Some (Int 21)) None None T_out_design_default
    = Raise OverflowError.
Proof. vm_compute. auto. Qed.

(** The zero COP of the first input, and its positive differential. *)
Lemma zero_COP_month :
  monthly_COP (Float 0.0) (Float 94.637362637362628) = Ok 0 /\
  fsub T_room (Float 0.0) = Ok 20.
Proof. vm_compute. auto. Qed.

End LoopFaults.

(** ** The monthly rows and the totals *)

Section Monthly.

Local Open Scope float_scope.

(** What one successful pass through the loop body has computed. *)
Lemma month_step_Ok Kc i Tenv Tout dys m :
  month_step Kc i Tenv Tout dys = Ok m ->
  exists name t_m COP delta_T,
    index month_names i = Ok name /\
    mulf dys 24.0 = Ok t_m /\
    monthly_COP Tenv Tout = Ok COP /\
    fsub T_room Tenv = Ok delta_T /\
    month m = name /\ T_menv m = Tenv /\ T_mout m = Tout /\ days m = dys /\
    COP_m m = COP /\
    (((delta_T <=? 0) = true /\ Qm_kWh m = 0 /\ Pm_kWh m = 0) \/
     ((delta_T <=? 0) = false /\ is_zero COP = false /\
      Qm_kWh m = Kc * delta_T * t_m /\ Pm_kWh m = Qm_kWh m / COP)).
Proof.
  unfold month_step. intros H.
  apply bind_Ok_inv in H as (name & Hname & H).
  apply bind_Ok_inv in H as (t_m & Ht & H).
  apply bind_Ok_inv in H as (COP & HC & H).
  apply bind_Ok_inv in H as (delta_T & Hd & H).
  exists name, t_m, COP, delta_T.
  destruct (delta_T <=? 0) eqn:Hle.
  - injection H as <-. simpl. repeat split; auto.
  - apply bind_Ok_inv in H as (Pm & HP & H). injection H as <-. simpl.
    unfold fdiv in HP. destruct (is_zero COP) eqn:Hz; [discriminate|].
    injection HP as <-. repeat split; auto.
Qed.

(** C7.  In every returned result the two totals are the sums, taken in
    month order from [0.0] as the loop takes them, of the heat and of the
    electricity of the returned monthly rows. *)
Theorem totals_are_monthly_sums env out dys n_units area q_H T_out s r :
  calculate_scop env out dys n_units area q_H T_out = Ok (s, r) ->
  Q_total_kWh r = float_sum (map Qm_kWh (monthly r)) /\
  P_total_kWh r = float_sum (map Pm_kWh (monthly r)).
Proof.
  intros H.
  apply calculate_scop_Ok in H as (P & Km & rs & _ & _ & _ & _ & ->).
  simpl. auto.
Qed.

Lemma totals_are_monthly_sums_witness :
  reference_call = Ok reference_result /\
  Q_total_kWh (snd reference_result)
    = float_sum (map Qm_kWh (monthly (snd reference_result))) /\
  P_total_kWh (snd reference_result)
    = float_sum (map Pm_kWh (monthly (snd reference_result))).
Proof.
  split; [exact reference_call_Ok|].
  apply (totals_are_monthly_sums env_temps out_temps days_in_month
           (Some (Int 21)) None None T_out_design_default
           (fst reference_result) (snd reference_result)).
  exact reference_call_Ok.
Defined.

Lemma running_sum_zeros xs :
  Forall (fun x => x = 0) xs -> running_sum 0 xs = 0.
Proof.
  induction 1 as [|x xs -> _ IH]; [reflexivity|].
  unfold running_sum in *. simpl. exact IH.
Qed.

Lemma month_rows_no_demand Kc i rows rs :
  month_rows Kc i rows = Ok rs ->
  Forall no_heating_demand rs ->
  Forall (fun x => x = 0) (map Qm_kWh rs) /\
  Forall (fun x => x = 0) (map Pm_kWh rs).
Proof.
  intros Hrs Hall.
  assert (Hrow : forall m, In m rs -> Qm_kWh m = 0 /\ Pm_kWh m = 0).
  { intros m Hin. apply In_nth_error in Hin as (j & Hj).
    destruct (month_rows_nth _ _ _ _ Hrs j m Hj) as (Te & To & dd & _ & Hstep).
    apply month_step_Ok in Hstep
      as (name & t_m & COP & dT & _ & _ & _ & Hd & _ & HT & _ & _ & _ & Hcase).
    rewrite Forall_forall in Hall.
    destruct (Hall m (nth_error_In _ _ Hj)) as (dT' & Hd' & Hle).
    rewrite HT, Hd in Hd'. injection Hd' as <-.
    destruct Hcase as [(_ & HQ & HP) | (Hgt & _)]; [auto | congruence]. }
  split; apply Forall_forall; intros x Hx; apply in_map_iff in Hx as (m & <- & Hin);
    apply Hrow, Hin.
Qed.

(** C8.  If the differential of every month of a returned result is not
    positive, the total electricity (and the total heat) is [0.0] and the
    SCOP is the not-a-number that marks the undefined ratio. *)
Theorem no_demand_scop_undefined env out dys n_units area q_H T_out s r :
  calculate_scop env out dys n_units area q_H T_out = Ok (s, r) ->
  Forall no_heating_demand (monthly r) ->
  P_total_kWh r = 0 /\ Q_total_kWh r = 0 /\ SCOP r = nan /\ s = nan.
Proof.
  intros H Hall.
  apply calculate_scop_Ok in H as (P & Km & rs & _ & _ & Hrs & Hs & ->).
  simpl in *.
  destruct (month_rows_no_demand _ _ _ _ Hrs Hall) as (HQ & HP).
  unfold float_sum in *.
  rewrite (running_sum_zeros _ HP) in *. rewrite (running_sum_zeros _ HQ) in *.
  rewrite scop_ratio_not_pos in Hs by reflexivity.
  injection Hs as <-. auto.
Qed.

Lemma no_demand_scop_undefined_witness :
  warm_call = Ok warm_result /\
  Forall no_heating_demand (monthly (snd warm_result)) /\
  P_total_kWh (snd warm_result) = 0 /\ Q_total_kWh (snd warm_result) = 0 /\
  SCOP (snd warm_result) = nan /\ fst warm_result = nan.
Proof.
  assert (Hall : Forall no_heating_demand (monthly (snd warm_result))).
  { repeat constructor. exists (-5). split; reflexivity. }
  split; [exact warm_call_Ok|]. split; [exact Hall|].
  apply (no_demand_scop_undefined [Float 25.0] [Float 40.0] [Int 30]
           (Some (Int 21)) None None T_out_design_default
           (fst warm_result) (snd warm_result)).
  - exact warm_call_Ok.
  - exact Hall.
Defined.

End Monthly.

(** ** The monthly formulas *)

Section Formulas.

Local Open Scope float_scope.

Lemma fmul_Ok x v y :
  fmul x v = Ok y -> exists f, to_float v = Ok f /\ y = x * f.
Proof.
  unfold fmul. intros H. apply bind_Ok_inv in H as (f & Hf & H).
  injection H as <-. eauto.
Qed.

Lemma mulf_Ok v x y :
  mulf v x = Ok y -> exists f, to_float v = Ok f /\ y = f * x.
Proof.
  unfold mulf. intros H. apply bind_Ok_inv in H as (f & Hf & H).
  injection H as <-. eauto.
Qed.

Lemma fsub_Ok x v y :
  fsub x v = Ok y -> exists f, to_float v = Ok f /\ y = x - f.
Proof.
  unfold fsub. intros H. apply bind_Ok_inv in H as (f & Hf & H).
  injection H as <-. eauto.
Qed.

Lemma monthly_COP_Ok Tenv Tout COP :
  monthly_COP Tenv Tout = Ok COP ->
  exists T Tsq Tsup,
    to_float Tenv = Ok T /\
    (sq <- pow2 Tenv ;; to_float sq) = Ok Tsq /\
    to_float Tout = Ok Tsup /\
    COP = a * Tsq + b * T + c * Tsup + d.
Proof.
  unfold monthly_COP. intros H.
  apply bind_Ok_inv in H as (sq & Hsq & H).
  apply bind_Ok_inv in H as (t1 & H1 & H).
  apply bind_Ok_inv in H as (t2 & H2 & H).
  apply bind_Ok_inv in H as (t3 & H3 & H).
  injection H as <-.
  apply fmul_Ok in H1 as (Tsq & HTsq & ->).
  apply fmul_Ok in H2 as (T & HT & ->).
  apply fmul_Ok in H3 as (Tsup & HTsup & ->).
  exists T, Tsq, Tsup. rewrite Hsq. simpl. auto.
Qed.



End Formulas.

(** ** Input sequences of unequal length *)

Section Truncation.

Local Open Scope nat_scope.

Lemma zip3_length {A B C : Type} (xs : list A) (ys : list B) (zs : list C) :
  length (zip3 xs ys zs) = Nat.min (length xs) (Nat.min (length ys) (length zs)).
Proof.
  revert ys zs. induction xs as [|x xs IH]; intros [|y ys] [|z zs]; simpl; auto.
Qed.





End Truncation.

(** ** Positive quotients in binary64

    What the sign of [K] needs: a converted positive integer is at least
    [1.0], and a quotient of normal numbers is positive. *)

(** *** Conversion of integers *)

Lemma binary_normalize_valid z :
  valid_binary (binary_normalize prec emax z 0 false) = true.
Proof. destruct z; [reflexivity| |]; apply binary_round_valid. Qed.

Lemma float_of_int_Ok z f :
  float_of_int z = Ok f -> Prim2SF f = binary_normalize prec emax z 0 false.
Proof.
  unfold float_of_int.
  destruct (is_infinity _); [discriminate|]. intros H. injection H as <-.
  apply Prim2SF_SF2Prim, binary_normalize_valid.
Qed.



(** *** Division of normal numbers *)







Local Open Scope float_scope.




(** ** The heat-transfer coefficient *)

Section Coefficient.

Local Open Scope float_scope.
Local Open Scope py_scope.









End Coefficient.

Section CoefficientClaims.

Local Open Scope float_scope.
Local Open Scope py_scope.

Lemma leb_trans x y z :
  (x <=? y) = true -> (y <=? z) = true -> (x <=? z) = true.
Proof.
  rewrite !leb_ord. intros (Nx & Ny & H1) (_ & Nz & H2).
  repeat split; try assumption. lia.
Qed.




End CoefficientClaims.

(** ** Monotonicity of the monthly heat *)

Section HeatMonotone.

Local Open Scope float_scope.
Local Open Scope py_scope.

Lemma ltb_0_ord x : (0 <? x) = true <-> not_nan (Prim2SF x) /\ (0 < ord (Prim2SF x))%Z.
Proof.
  rewrite ltb_ord, Prim2SF_0. cbn [ord]. split.
  - intros (_ & N & H). auto.
  - intros (N & H). repeat split; [discriminate|assumption|assumption].
Qed.

Lemma ltb_leb x y : (x <? y) = true -> (x <=? y) = true.
Proof. rewrite ltb_ord, leb_ord. intros (Nx & Ny & H). repeat split; try assumption. lia. Qed.

Lemma ltb_leb_trans x y z :
  (x <? y) = true -> (y <=? z) = true -> (x <? z) = true.
Proof.
  rewrite !ltb_ord, leb_ord. intros (Nx & Ny & H1) (_ & Nz & H2).
  repeat split; try assumption. lia.
Qed.

(** A positive number of days gives a positive number of hours. *)
Lemma hours_pos nd : (0 <? nd) = true -> (0 <? nd * 24.0) = true.
Proof.
  intros Hpos.
  assert (Heps : (5e-324 <=? nd) = true).
  { apply ltb_0_ord in Hpos as (N & H). rewrite leb_ord.
    change (Prim2SF 5e-324) with (S754_finite false 1 (-1074)).
    cbn [ord cond_Zopp]. change (Zpos 1 * 2 ^ (-1074 + 1074))%Z with 1%Z.
    repeat split; [discriminate|assumption|lia]. }
  destruct (mul_le_mono_r 5e-324 nd 24.0) as [_ Hle];
    try reflexivity; try assumption; [left; reflexivity|].
  apply (ltb_leb_trans _ (5e-324 * 24.0)); [reflexivity|exact Hle].
Qed.

(** C9, as stated, fails.  Lowering the ambient temperature of the month
    from [1e-20] to [0.0] leaves the differential at [20.0] and the heat
    delivered unchanged: it does not strictly increase. *)
Lemma heat_not_strictly_monotone :
  let Kc := 186.13280811176475 in
  let row T := {| month := "11月"; T_menv := Float T; T_mout := Float 40;
                  days := Int 30; COP_m := 3.4804000000000004;
                  Qm_kWh := 2680312.4368094122; Pm_kWh := 770116.20411717391 |} in
  month_step Kc 0 (Float 0) (Float 40) (Int 30) = Ok (row 0) /\
  month_step Kc 0 (Float 1e-20) (Float 40) (Int 30) = Ok (row 1e-20) /\
  (0 <? 1e-20) = true /\ (0 <? 20.0 - 1e-20) = true /\
  (Qm_kWh (row 1e-20) <? Qm_kWh (row 0)) = false.
Proof. vm_compute. repeat split. Qed.

(** C9, amended.  With [K > 0], a positive number of days and finite
    operating hours, a month with a lower ambient temperature [T1 < T2]
    and a positive differential at [T2] delivers at least as much heat:
    the heat never decreases, but it can stay equal. *)
Theorem heat_monotone_in_ambient Kc i T1 T2 Tout dys m1 m2 f1 f2 nd :
  month_step Kc i T1 Tout dys = Ok m1 ->
  month_step Kc i T2 Tout dys = Ok m2 ->
  to_float T1 = Ok f1 -> to_float T2 = Ok f2 -> to_float dys = Ok nd ->
  (0 <? Kc) = true ->
  (0 <? nd) = true -> (nd * 24.0 <? infinity) = true ->
  (f1 <? f2) = true ->
  (0 <? 20.0 - f2) = true ->
  Qm_kWh m1 = Kc * (20.0 - f1) * (nd * 24.0) /\
  Qm_kWh m2 = Kc * (20.0 - f2) * (nd * 24.0) /\
  (Qm_kWh m2 <=? Qm_kWh m1) = true.
Proof.
  intros H1 H2 Hf1 Hf2 Hnd HK Hdays Hfin Hlt Hpos2.
  assert (Hsub : (20.0 - f2 <=? 20.0 - f1) = true)
    by (apply sub_le_mono_l; [reflexivity|reflexivity|exact Hlt|exact Hpos2]).
  assert (Hpos1 : (0 <? 20.0 - f1) = true) by (eapply ltb_leb_trans; eassumption).
  assert (HQ : forall T f m, month_step Kc i T Tout dys = Ok m -> to_float T = Ok f ->
            (0 <? 20.0 - f) = true -> Qm_kWh m = Kc * (20.0 - f) * (nd * 24.0)).
  { intros T f m Hm Hf Hp.
    apply month_step_Ok in Hm
      as (name & t_m & COP & dT & _ & Ht & _ & Hd & _ & _ & _ & _ & _ & Hcase).
    apply mulf_Ok in Ht as (nd' & Hnd' & ->). rewrite Hnd in Hnd'. injection Hnd' as <-.
    apply fsub_Ok in Hd as (f' & Hf' & ->). rewrite Hf in Hf'. injection Hf' as <-.
    destruct Hcase as [(Hle & _)|(_ & _ & HQm & _)]; [|exact HQm].
    apply pos_not_le_zero in Hp. unfold T_room in Hle. congruence. }
  rewrite (HQ _ _ _ H1 Hf1 Hpos1), (HQ _ _ _ H2 Hf2 Hpos2).
  split; [reflexivity|]. split; [reflexivity|].
  destruct (mul_le_mono_l (20.0 - f2) (20.0 - f1) Kc) as [H0 Hle];
    [apply ltb_leb, Hpos2|exact Hsub|exact HK|right; exact Hpos2|].
  destruct (mul_le_mono_r (Kc * (20.0 - f2)) (Kc * (20.0 - f1)) (nd * 24.0))
    as [_ Hle2]; [exact H0|exact Hle|apply hours_pos, Hdays|left; exact Hfin|].
  exact Hle2.
Qed.

Lemma heat_monotone_in_ambient_witness :
  let Kc := 186.13280811176475 in
  exists m1 m2,
    month_step Kc 2 (Float (-2.8)) (Float 40) (Int 31) = Ok m1 /\
    month_step Kc 2 (Float (-1.5)) (Float 40) (Int 31) = Ok m2 /\
    (0 <? Kc) = true /\ (0 <? 31) = true /\ (31 * 24.0 <? infinity) = true /\
    (-2.8 <? -1.5) = true /\ (0 <? 20.0 - -1.5) = true /\
    (Qm_kWh m2 <=? Qm_kWh m1) = true.
Proof.
  intros Kc.
  destruct (month_step Kc 2 (Float (-2.8)) (Float 40) (Int 31)) as [m1|e] eqn:E1;
    [|exfalso; revert E1; vm_compute; discriminate].
  destruct (month_step Kc 2 (Float (-1.5)) (Float 40) (Int 31)) as [m2|e] eqn:E2;
    [|exfalso; revert E2; vm_compute; discriminate].
  exists m1, m2. repeat split; try reflexivity.
  apply (heat_monotone_in_ambient Kc 2 (Float (-2.8)) (Float (-1.5)) (Float 40)
           (Int 31) m1 m2 (-2.8) (-1.5) 31 E1 E2); reflexivity.
Defined.

End HeatMonotone.

Local Open Scope Z_scope.

(** ** Not-a-number *)

Section NotANumber.

Local Open Scope float_scope.

Lemma SFeqb_refl X : not_nan X -> SFeqb X X = true.
Proof.
  intros H. destruct X as [s|s| |s m e]; try (destruct s; reflexivity).
  - exfalso. apply H. reflexivity.
  - unfold SFeqb. cbn [SFcompare]. rewrite Z.compare_refl.
    change (PosDef.Pos.compare_cont Eq m m) with (Pos.compare m m).
    rewrite Pos.compare_refl. destruct s; reflexivity.
Qed.

Lemma is_nan_spec x : is_nan x = true <-> Prim2SF x = S754_nan.
Proof.
  unfold is_nan. rewrite eqb_spec. split.
  - intros H. destruct (nan_or_not (Prim2SF x)) as [N|N]; [exact N|].
    rewrite (SFeqb_refl _ N) in H. discriminate.
  - intros ->. reflexivity.
Qed.

Lemma Prim2SF_nan : Prim2SF nan = S754_nan.
Proof. reflexivity. Qed.

Lemma is_nan_eq x : is_nan x = true <-> x = nan.
Proof.
  rewrite is_nan_spec. split.
  - intros H. apply Prim2SF_inj. rewrite H. reflexivity.
  - intros ->. reflexivity.
Qed.

(** [not (0 < x)] holds for the numbers [x <= 0] and for not-a-number. *)
Lemma not_pos_cases x :
  (0 <? x) = false <-> (x <=? 0) = true \/ is_nan x = true.
Proof.
  rewrite <- Bool.not_true_iff_false, ltb_ord, leb_ord, is_nan_spec, Prim2SF_0.
  cbn [ord]. split.
  - intros H. destruct (nan_or_not (Prim2SF x)) as [N|N]; [right; exact N|].
    left. split; [exact N|]. split; [discriminate|].
    destruct (Z_lt_le_dec 0 (ord (Prim2SF x))) as [Hlt|Hle]; [|exact Hle].
    exfalso. apply H. repeat split; [discriminate|exact N|exact Hlt].
  - intros [(_ & _ & Hle)|N] (_ & N' & Hlt); [lia|]. apply N', N.
Qed.

End NotANumber.

(** ** The guarded ratio *)

Section Ratio.

Local Open Scope float_scope.

(** X1.  The SCOP of a returned result is the binary64 quotient of the two
    totals when the total electricity is greater than zero.  In every other
    case, a total that is zero, negative or not-a-number, it is
    not-a-number.  The first component of the returned pair is the SCOP
    field of the dictionary. *)
Theorem scop_is_guarded_ratio env out dys n_units area q_H T_out s r :
  calculate_scop env out dys n_units area q_H T_out = Ok (s, r) ->
  s = SCOP r /\
  ((0 <? P_total_kWh r) = true -> SCOP r = Q_total_kWh r / P_total_kWh r) /\
  ((P_total_kWh r <=? 0) = true \/ is_nan (P_total_kWh r) = true ->
   SCOP r = nan).
Proof.
  intros H.
  apply calculate_scop_Ok in H as (P & Km & rs & _ & _ & _ & Hs & ->).
  cbn [SCOP P_total_kWh Q_total_kWh]. split; [reflexivity|]. split.
  - intros Hpos. rewrite (scop_ratio_pos _ _ Hpos) in Hs. congruence.
  - intros Hnot. apply not_pos_cases in Hnot.
    rewrite (scop_ratio_not_pos _ _ Hnot) in Hs. congruence.
Qed.

Lemma scop_is_guarded_ratio_witness :
  reference_call = Ok reference_result /\
  (0 <? P_total_kWh (snd reference_result)) = true /\
  SCOP (snd reference_result)
    = Q_total_kWh (snd reference_result) / P_total_kWh (snd reference_result) /\
  fst reference_result = SCOP (snd reference_result).
Proof.
  split; [exact reference_call_Ok|]. split; [reflexivity|].
  destruct (scop_is_guarded_ratio env_temps out_temps days_in_month
              (Some (Int 21)) None None T_out_design_default
              (fst reference_result) (snd reference_result) reference_call_Ok)
    as (Hs & Hpos & _).
  split; [apply Hpos; reflexivity|exact Hs].
Defined.

End Ratio.

(** ** The table of month names *)

Section MonthNames.

Local Open Scope nat_scope.

Lemma skipn_nth_error {A : Type} (l : list A) i x :
  nth_error l i = Some x -> skipn i l = x :: skipn (S i) l.
Proof.
  revert l. induction i as [|i IH]; intros [|y l] H; try discriminate.
  - injection H as ->. reflexivity.
  - apply IH in H. exact H.
Qed.

Lemma month_rows_names Kc i rows rs :
  month_rows Kc i rows = Ok rs ->
  (rows <> [] -> i + length rows <= 6) /\
  map month rs = firstn (length rows) (skipn i month_names).
Proof.
  revert i rs. induction rows as [|[[Tenv Tout] dys] rows IH]; intros i rs H.
  - injection H as <-. split; [congruence|reflexivity].
  - cbn [month_rows] in H.
    apply bind_Ok_inv in H as (m & Hm & H).
    apply bind_Ok_inv in H as (rs' & Hrs & H). injection H as <-.
    apply month_step_Ok in Hm
      as (name & t_m & COP & dT & Hname & _ & _ & _ & Hmonth & _).
    unfold index in Hname.
    destruct (nth_error month_names i) as [nm|] eqn:Hnth; [|discriminate].
    injection Hname as ->.
    assert (Hi : i < 6).
    { change 6 with (length month_names). apply nth_error_Some. congruence. }
    destruct (IH _ _ Hrs) as [Hlen Hnames]. split.
    + intros _. destruct rows as [|r0 rows']; [simpl; lia|].
      specialize (Hlen ltac:(discriminate)). simpl in *. lia.
    + rewrite (skipn_nth_error _ _ _ Hnth). cbn [map length firstn].
      rewrite Hmonth, Hnames. reflexivity.
Qed.

(** X2.  The table of line 52 has six names.  A returned result has at most
    six monthly rows, named by the first entries of the table in order, and
    a call whose three sequences all have more than six entries never
    returns a result. *)
Theorem at_most_six_months env out dys n_units area q_H T_out :
  (forall s r,
     calculate_scop env out dys n_units area q_H T_out = Ok (s, r) ->
     length (monthly r) <= 6 /\
     map month (monthly r) = firstn (length (monthly r)) month_names) /\
  (6 < length env -> 6 < length out -> 6 < length dys ->
   forall res, calculate_scop env out dys n_units area q_H T_out <> Ok res).
Proof.
  assert (Hrows : forall s r,
            calculate_scop env out dys n_units area q_H T_out = Ok (s, r) ->
            length (monthly r) = length (zip3 env out dys) /\
            length (monthly r) <= 6 /\
            map month (monthly r) = firstn (length (monthly r)) month_names).
  { intros s r H.
    apply calculate_scop_Ok in H as (P & Km & rs & _ & _ & Hrs & _ & ->).
    cbn [monthly]. pose proof (month_rows_length _ _ _ _ Hrs) as Hlen.
    destruct (month_rows_names _ _ _ _ Hrs) as [Hsix Hnames].
    split; [exact Hlen|]. split.
    - rewrite Hlen. destruct (zip3 env out dys) as [|x l]; [simpl; lia|].
      specialize (Hsix ltac:(discriminate)). simpl in *. lia.
    - rewrite Hnames, Hlen. reflexivity. }
  split.
  - intros s r H. destruct (Hrows s r H) as (_ & H6 & Hn). split; assumption.
  - intros He Ho Hd [s r] H. destruct (Hrows s r H) as (Hlen & H6 & _).
    rewrite Hlen, zip3_length in H6. lia.
Qed.

End MonthNames.

Lemma at_most_six_months_witness :
  reference_call = Ok reference_result /\
  (length (monthly (snd reference_result)) <= 6)%nat /\
  map month (monthly (snd reference_result)) = month_names.
Proof.
  split; [exact reference_call_Ok|].
  destruct (at_most_six_months env_temps out_temps days_in_month
              (Some (Int 21)) None None T_out_design_default) as [H _].
  destruct (H (fst reference_result) (snd reference_result) reference_call_Ok)
    as [H6 Hn].
  split; [exact H6|]. rewrite Hn. reflexivity.
Defined.

(** ** Seasons without months *)

Section EmptySeason.

Local Open Scope float_scope.

Lemma zip3_nil_cases {A B C : Type} (xs : list A) (ys : list B) (zs : list C) :
  xs = [] \/ ys = [] \/ zs = [] -> zip3 xs ys zs = [].
Proof.
  intros [->|[->| ->]]; [reflexivity| |].
  - destruct xs; reflexivity.
  - destruct xs; [reflexivity|]. destruct ys; reflexivity.
Qed.

(** X3.  When one of the three sequences is empty the loop body never runs:
    once the sizing parameters gave a coefficient, the call returns with no
    monthly rows, both totals [0.0] and a not-a-number SCOP, whatever the
    other two sequences hold. *)
Theorem empty_season env out dys n_units area q_H T_out P Km :
  P_hmax_design T_out = Ok P ->
  heat_transfer_K P n_units area q_H = Ok Km ->
  env = [] \/ out = [] \/ dys = [] ->
  calculate_scop env out dys n_units area q_H T_out =
  Ok (nan, {| K := fst Km; Q_total_kWh := 0; P_total_kWh := 0;
              SCOP := nan; monthly := [] |}).
Proof.
  intros HP HK Hnil. unfold calculate_scop.
  rewrite HP. cbn [bind]. rewrite HK. cbn [bind].
  rewrite (zip3_nil_cases _ _ _ Hnil). reflexivity.
Qed.

Lemma empty_season_witness :
  calculate_scop env_temps [] days_in_month
    (Some (Int 21)) None None T_out_design_default =
  Ok (nan, {| K := 186.13280811176475; Q_total_kWh := 0; P_total_kWh := 0;
              SCOP := nan; monthly := [] |}).
Proof.
  apply (empty_season env_temps [] days_in_month (Some (Int 21)) None None
           T_out_design_default 241.08630384000003
           (186.13280811176475, UnitCount));
    [reflexivity|reflexivity|right; left; reflexivity].
Defined.

End EmptySeason.

(** ** The outlet design temperature *)

Section OutletDesign.

Local Open Scope float_scope.

(** X4.  Under the area method the design capacity is computed and then
    not used: two calls that differ only in [T_out_design] give the same
    outcome, as long as the capacity could be evaluated for both. *)
Theorem area_method_ignores_outlet_design env out dys area q_H T1 T2 P1 P2 :
  P_hmax_design T1 = Ok P1 -> P_hmax_design T2 = Ok P2 ->
  calculate_scop env out dys None (Some area) (Some q_H) T1 =
  calculate_scop env out dys None (Some area) (Some q_H) T2.
Proof.
  intros H1 H2. unfold calculate_scop. rewrite H1, H2. reflexivity.
Qed.

Lemma area_method_ignores_outlet_design_witness :
  calculate_scop env_temps out_temps days_in_month
    None (Some (Int 67000)) (Some (Int 25)) (Int 45) =
  calculate_scop env_temps out_temps days_in_month
    None (Some (Int 67000)) (Some (Int 25)) (Float 60.5).
Proof.
  apply (area_method_ignores_outlet_design env_temps out_temps days_in_month
           (Int 67000) (Int 25) (Int 45) (Float 60.5)
           241.08630384000003 195.42875208999999); reflexivity.
Defined.

(** X5.  The design capacity of lines 28-29 is evaluated before the sizing
    parameters are looked at.  A finite float [T_out_design] whose square
    overflows makes every call raise OverflowError: under the area method,
    which does not use the capacity, and also when the sizing parameters
    are missing, where no ValueError is reached. *)
Theorem outlet_design_overflow env out dys n_units area q_H f :
  is_infinity f = false -> is_infinity (f * f) = true ->
  calculate_scop env out dys n_units area q_H (Float f) = Raise OverflowError.
Proof.
  intros Hf Hsq. unfold calculate_scop, P_hmax_design.
  change (pow2 (Float T_design)) with (Ok (Float (T_design * T_design))).
  cbn [bind fmul to_float]. unfold pow2. rewrite Hsq, Hf. reflexivity.
Qed.

Lemma outlet_design_overflow_witness :
  calculate_scop env_temps out_temps days_in_month
    None (Some (Int 67000)) (Some (Int 25)) (Float 1e200) = Raise OverflowError /\
  calculate_scop env_temps out_temps days_in_month
    None None None (Float 1e200) = Raise OverflowError.
Proof.
  split; apply outlet_design_overflow; reflexivity.
Defined.

End OutletDesign.

(** ** What the coefficient does not influence *)

Section SizingIndependence.

Local Open Scope float_scope.

Lemma month_step_any_K K1 K2 i Tenv Tout dys m1 :
  month_step K1 i Tenv Tout dys = Ok m1 ->
  exists m2,
    month_step K2 i Tenv Tout dys = Ok m2 /\
    (month m2, T_menv m2, T_mout m2, days m2, COP_m m2)
    = (month m1, T_menv m1, T_mout m1, days m1, COP_m m1).
Proof.
  unfold month_step.
  destruct (index month_names i) as [name|]; [|discriminate].
  destruct (mulf dys 24.0) as [t_m|]; [|discriminate].
  destruct (monthly_COP Tenv Tout) as [COP|]; [|discriminate].
  destruct (fsub T_room Tenv) as [dT|]; [|discriminate].
  cbn [bind]. destruct (dT <=? 0).
  - intros H. injection H as <-. eexists. split; reflexivity.
  - unfold fdiv. destruct (is_zero COP); [discriminate|].
    cbn [bind]. intros H. injection H as <-. eexists. split; reflexivity.
Qed.

Lemma month_rows_any_K K1 K2 i rows rs1 :
  month_rows K1 i rows = Ok rs1 ->
  exists rs2,
    month_rows K2 i rows = Ok rs2 /\
    map (fun m => (month m, T_menv m, T_mout m, days m, COP_m m)) rs2
    = map (fun m => (month m, T_menv m, T_mout m, days m, COP_m m)) rs1.
Proof.
  revert i rs1. induction rows as [|[[Tenv Tout] dys] rows IH]; intros i rs1 H.
  - injection H as <-. exists []. split; reflexivity.
  - cbn [month_rows] in H |- *.
    apply bind_Ok_inv in H as (m1 & Hm & H).
    apply bind_Ok_inv in H as (rs' & Hrs & H). injection H as <-.
    destruct (month_step_any_K K1 K2 _ _ _ _ _ Hm) as (m2 & Hm2 & Heq).
    destruct (IH _ _ Hrs) as (rs2 & Hrs2 & Heqs).
    exists (m2 :: rs2). rewrite Hm2, Hrs2. cbn [bind map].
    split; [reflexivity|]. rewrite Heq, Heqs. reflexivity.
Qed.

(** X6.  Whether the monthly loop completes does not depend on the sizing:
    if a call returns, the call on the same monthly data with any other
    sizing parameters that give a coefficient returns too, and its rows
    carry the same month names, the same echoed inputs and the same monthly
    COP.  The coefficient only enters the heat and the electricity. *)
Theorem loop_outcome_independent_of_sizing
    env out dys n1 area1 q1 T1 n2 area2 q2 T2 s1 r1 P2 Km2 :
  calculate_scop env out dys n1 area1 q1 T1 = Ok (s1, r1) ->
  P_hmax_design T2 = Ok P2 ->
  heat_transfer_K P2 n2 area2 q2 = Ok Km2 ->
  exists s2 r2,
    calculate_scop env out dys n2 area2 q2 T2 = Ok (s2, r2) /\
    K r2 = fst Km2 /\
    map (fun m => (month m, T_menv m, T_mout m, days m, COP_m m)) (monthly r2)
    = map (fun m => (month m, T_menv m, T_mout m, days m, COP_m m)) (monthly r1).
Proof.
  intros H HP HK.
  apply calculate_scop_Ok in H as (P & Km & rs & _ & _ & Hrs & _ & ->).
  destruct (month_rows_any_K _ (fst Km2) _ _ _ Hrs) as (rs2 & Hrs2 & Heq).
  destruct (scop_ratio_total (float_sum (map Qm_kWh rs2))
              (float_sum (map Pm_kWh rs2))) as (s2 & Hs2).
  exists s2. eexists. unfold calculate_scop.
  rewrite HP. cbn [bind]. rewrite HK. cbn [bind].
  rewrite months_loop_rows, Hrs2. cbn [bind Q_total P_total monthly_data].
  fold (float_sum (map Qm_kWh rs2)). fold (float_sum (map Pm_kWh rs2)).
  rewrite Hs2. cbn [bind]. split; [reflexivity|].
  split; [reflexivity|exact Heq].
Qed.

Lemma loop_outcome_independent_of_sizing_witness :
  exists s2 r2,
    calculate_scop env_temps out_temps days_in_month
      None (Some (Int 67000)) (Some (Int 25)) T_out_design_default = Ok (s2, r2) /\
    K r2 = 61.580882352941181 /\
    map (fun m => (month m, T_menv m, T_mout m, days m, COP_m m)) (monthly r2)
    = map (fun m => (month m, T_menv m, T_mout m, days m, COP_m m))
        (monthly (snd reference_result)).
Proof.
  apply (loop_outcome_independent_of_sizing env_temps out_temps days_in_month
           (Some (Int 21)) None None T_out_design_default
           None (Some (Int 67000)) (Some (Int 25)) T_out_design_default
           (fst reference_result) (snd reference_result)
           241.08630384000003 (61.580882352941181, AreaIndex));
    [exact reference_call_Ok|reflexivity|reflexivity].
Defined.

End SizingIndependence.

(** ** Missing data: not-a-number temperatures *)

Section NanPropagation.

Local Open Scope float_scope.

Lemma mul_nan_l y : nan * y = nan.
Proof. apply Prim2SF_inj. rewrite mul_spec, Prim2SF_nan. reflexivity. Qed.

Lemma mul_nan_r x : x * nan = nan.
Proof.
  apply Prim2SF_inj. rewrite mul_spec, Prim2SF_nan.
  destruct (Prim2SF x); reflexivity.
Qed.

Lemma add_nan_l y : nan + y = nan.
Proof. apply Prim2SF_inj. rewrite add_spec, Prim2SF_nan. reflexivity. Qed.

Lemma add_nan_r x : x + nan = nan.
Proof.
  apply Prim2SF_inj. rewrite add_spec, Prim2SF_nan.
  destruct (Prim2SF x); reflexivity.
Qed.

Lemma div_nan_l y : nan / y = nan.
Proof. apply Prim2SF_inj. rewrite div_spec, Prim2SF_nan. reflexivity. Qed.

Lemma running_sum_nan_start xs : running_sum nan xs = nan.
Proof.
  unfold running_sum. induction xs as [|x xs IH]; [reflexivity|].
  cbn [fold_left]. rewrite add_nan_l. exact IH.
Qed.

Lemma running_sum_nan q0 xs : In nan xs -> running_sum q0 xs = nan.
Proof.
  unfold running_sum. revert q0.
  induction xs as [|x xs IH]; intros q0 Hin; [destruct Hin|].
  destruct Hin as [Hx|Hin]; cbn [fold_left].
  - subst x. rewrite add_nan_r. apply running_sum_nan_start.
  - apply IH, Hin.
Qed.

Lemma zip3_nth_error {A B C : Type} (xs : list A) (ys : list B) (zs : list C) i x :
  nth_error xs i = Some x -> (i < length ys)%nat -> (i < length zs)%nat ->
  exists y z, nth_error (zip3 xs ys zs) i = Some (x, y, z).
Proof.
  revert xs ys zs. induction i as [|i IH]; intros [|x0 xs] [|y0 ys] [|z0 zs] Hx Hy Hz;
    simpl in *; try discriminate; try lia.
  - injection Hx as ->. eauto.
  - apply IH; [exact Hx|lia|lia].
Qed.

(** X7.  A not-a-number ambient temperature raises nothing.  In a returned
    result the month that holds it has a not-a-number COP, heat and
    electricity, both totals are not-a-number, and so is the SCOP: the
    missing value is reported the same way as a season without demand. *)
Theorem nan_ambient_gives_nan_scop env out dys n_units area q_H T_out s r i :
  calculate_scop env out dys n_units area q_H T_out = Ok (s, r) ->
  nth_error env i = Some (Float nan) ->
  (i < length out)%nat -> (i < length dys)%nat ->
  (exists m, nth_error (monthly r) i = Some m /\ T_menv m = Float nan /\
     COP_m m = nan /\ Qm_kWh m = nan /\ Pm_kWh m = nan) /\
  Q_total_kWh r = nan /\ P_total_kWh r = nan /\ SCOP r = nan /\ s = nan.
Proof.
  intros H Hi Ho Hd.
  apply calculate_scop_Ok in H as (P & Km & rs & _ & _ & Hrs & Hs & ->).
  cbn [monthly Q_total_kWh P_total_kWh SCOP].
  destruct (zip3_nth_error env out dys i _ Hi Ho Hd) as (To & dd & Hrow).
  destruct (nth_error rs i) as [m|] eqn:Hm.
  2:{ apply nth_error_None in Hm. rewrite (month_rows_length _ _ _ _ Hrs) in Hm.
      assert (nth_error (zip3 env out dys) i <> None) as Hne by congruence.
      apply nth_error_Some in Hne. lia. }
  destruct (month_rows_nth _ _ _ _ Hrs i m Hm) as (Te & To' & dd' & Hrow' & Hstep).
  rewrite Hrow in Hrow'. injection Hrow' as <- <- <-.
  apply month_step_Ok in Hstep
    as (name & t_m & COP & dT & _ & _ & HCOP & HdT & _ & HT & _ & _ & HC & Hcase).
  vm_compute in HdT. injection HdT as <-.
  apply monthly_COP_Ok in HCOP as (T & Tsq & Tsup & HTf & HTsq & _ & HCOPeq).
  cbn in HTf. injection HTf as <-.
  vm_compute in HTsq. injection HTsq as <-.
  assert (HCn : COP = nan).
  { rewrite HCOPeq, !mul_nan_r, !add_nan_l. reflexivity. }
  destruct Hcase as [(Hle & _)|(_ & _ & HQ & HPm)]; [discriminate|].
  assert (HQn : Qm_kWh m = nan) by (rewrite HQ, mul_nan_r, mul_nan_l; reflexivity).
  assert (HPn : Pm_kWh m = nan) by (rewrite HPm, HQn, div_nan_l; reflexivity).
  assert (HQt : float_sum (map Qm_kWh rs) = nan).
  { apply running_sum_nan. rewrite <- HQn. apply in_map.
    eapply nth_error_In, Hm. }
  assert (HPt : float_sum (map Pm_kWh rs) = nan).
  { apply running_sum_nan. rewrite <- HPn. apply in_map.
    eapply nth_error_In, Hm. }
  rewrite HQt, HPt in *.
  vm_compute in Hs. injection Hs as <-.
  split; [|auto].
  exists m. rewrite HC. auto 6.
Qed.

Lemma nan_ambient_gives_nan_scop_witness :
  exists s r,
    calculate_scop [Float (-0.5); Float nan] [Float 40; Float 40] [Int 30; Int 31]
      (Some (Int 21)) None None T_out_design_default = Ok (s, r) /\
    Q_total_kWh r = nan /\ P_total_kWh r = nan /\ SCOP r = nan /\ s = nan.
Proof.
  destruct (calculate_scop [Float (-0.5); Float nan] [Float 40; Float 40]
              [Int 30; Int 31] (Some (Int 21)) None None T_out_design_default)
    as [[s r]|e] eqn:E; [|exfalso; revert E; vm_compute; discriminate].
  exists s, r. split; [reflexivity|].
  apply (nan_ambient_gives_nan_scop _ _ _ _ _ _ _ s r 1%nat E);
    [reflexivity|simpl; lia|simpl; lia].
Defined.

End NanPropagation.

(** ** Signs of sums and quotients *)

Section Signs.

Lemma nonneg_shape_ord X : nonneg_shape X -> not_nan X /\ 0 <= ord X.
Proof.
  intros [s|m e|]; (split; [discriminate|]); cbn [ord cond_Zopp].
  - lia.
  - pose proof (Z.pow_nonneg 2 (e + 1074) ltac:(lia)). nia.
  - pose proof Omax_pos. lia.
Qed.

Lemma SFadd_nonneg X Y :
  nonneg_shape X -> nonneg_shape Y -> nonneg_shape (SF64add X Y).
Proof.
  intros [sx|mx ex|] [sy|my ey|]; unfold SF64add; cbn [SFadd Bool.eqb];
    try constructor.
  - destruct sx, sy; constructor.
  - cbn [cond_Zopp Z.add binary_normalize].
    pose proof (binary_round_not_nan false
                  (fst (shl_align mx ex (Z.min ex ey)) +
                   fst (shl_align my ey (Z.min ex ey))) (Z.min ex ey)) as N.
    pose proof (binary_round_nonneg
                  (fst (shl_align mx ex (Z.min ex ey)) +
                   fst (shl_align my ey (Z.min ex ey))) (Z.min ex ey)) as O.
    apply nonneg_shape_intro; [apply binary_round_valid|exact N|exact O].
Qed.

(** Rounding a non-negative mantissa with the sign bit clear gives
    not-a-number or a non-negative number. *)
Lemma binary_round_aux_false_shape m e l :
  binary_round_aux prec emax false m e l = S754_nan \/
  nonneg_shape (binary_round_aux prec emax false m e l).
Proof.
  unfold binary_round_aux.
  destruct (shr_fexp prec emax m e l) as [mrs' e'].
  destruct (shr_fexp prec emax _ e' loc_Exact) as [mrs'' e''].
  destruct (shr_m mrs'') as [|p|p]; [right; constructor| |left; reflexivity].
  destruct (e'' <=? emax - prec); right; constructor.
Qed.

Lemma SFdiv_nonneg X Y :
  nonneg_shape X -> nonneg_shape Y -> 0 < ord Y ->
  SF64div X Y = S754_nan \/ nonneg_shape (SF64div X Y).
Proof.
  intros HX [sy|my ey|] HY; [cbn [ord] in HY; lia| |].
  - destruct HX as [sx|mx ex|]; unfold SF64div; cbn [SFdiv xorb].
    + right. rewrite Bool.xorb_false_r. constructor.
    + destruct (SFdiv_core_binary prec emax (Zpos mx) ex (Zpos my) ey)
        as [[mz ez] lz].
      apply binary_round_aux_false_shape.
    + right. constructor.
  - destruct HX as [sx|mx ex|]; unfold SF64div; cbn [SFdiv xorb].
    + right. rewrite Bool.xorb_false_r. constructor.
    + right. constructor.
    + left. reflexivity.
Qed.

Local Open Scope float_scope.

Lemma nonneg_shape_leb x : (0 <=? x) = true <-> nonneg_shape (Prim2SF x).
Proof.
  rewrite leb_ord, Prim2SF_0. cbn [ord]. split.
  - intros (_ & N & H). apply nonneg_shape_intro; [apply Prim2SF_valid|exact N|exact H].
  - intros H. apply nonneg_shape_ord in H as [N H].
    split; [discriminate|]. split; assumption.
Qed.

Lemma add_nonneg x y :
  (0 <=? x) = true -> (0 <=? y) = true -> (0 <=? x + y) = true.
Proof.
  rewrite !nonneg_shape_leb, add_spec. apply SFadd_nonneg.
Qed.

Lemma running_sum_nonneg q0 xs :
  (0 <=? q0) = true -> Forall (fun x => (0 <=? x) = true) xs ->
  (0 <=? running_sum q0 xs) = true.
Proof.
  unfold running_sum. intros Hq Hxs. revert q0 Hq.
  induction Hxs as [|x xs Hx _ IH]; intros q0 Hq; [exact Hq|].
  cbn [fold_left]. apply IH, add_nonneg; assumption.
Qed.

Lemma div_not_negative x y :
  (0 <=? x) = true -> (0 <? y) = true -> (x / y <? 0) = false.
Proof.
  intros Hx Hy. pose proof (ltb_leb _ _ Hy) as Hy'.
  apply nonneg_shape_leb in Hx, Hy'. apply ltb_0_ord in Hy as [_ Hy].
  apply Bool.not_true_iff_false. rewrite ltb_ord, div_spec, Prim2SF_0.
  cbn [ord]. intros (N & _ & Hlt).
  destruct (SFdiv_nonneg _ _ Hx Hy' Hy) as [Hn|Hs]; [apply N, Hn|].
  apply nonneg_shape_ord in Hs as [_ Hs]. lia.
Qed.

(** A number that is neither not-a-number nor at most zero is positive. *)
Lemma not_le_zero_pos x :
  is_nan x = false -> (x <=? 0) = false -> (0 <? x) = true.
Proof.
  intros Hn Hle. destruct (0 <? x) eqn:E; [reflexivity|].
  apply not_pos_cases in E as [E|E]; congruence.
Qed.

Lemma Prim2SF_T_room :
  Prim2SF T_room = S754_finite false 5629499534213120 (-48).
Proof. reflexivity. Qed.

(** The differential of a temperature that is a number is a number. *)
Lemma differential_not_nan x : is_nan x = false -> is_nan (T_room - x) = false.
Proof.
  intros Hx. apply Bool.not_true_iff_false. rewrite is_nan_spec, sub_spec.
  apply Bool.not_true_iff_false in Hx. rewrite is_nan_spec in Hx.
  pose proof (Prim2SF_valid T_room) as Va. rewrite Prim2SF_T_room in *.
  apply (SFsub_ord false _ _ (Prim2SF x) Va (Prim2SF_valid x) Hx).
Qed.

End Signs.

(** ** Heat is never negative *)

Section HeatSign.

Local Open Scope float_scope.

Lemma zip3_In {A B C : Type} (xs : list A) (ys : list B) (zs : list C) x y z :
  In (x, y, z) (zip3 xs ys zs) -> In x xs /\ In y ys /\ In z zs.
Proof.
  revert ys zs. induction xs as [|x0 xs IH]; intros ys zs H; [destruct H|].
  destruct ys as [|y0 ys]; [destruct H|].
  destruct zs as [|z0 zs]; [destruct H|].
  destruct H as [H|H].
  - injection H as -> -> ->. simpl. auto.
  - apply IH in H as (Hx & Hy & Hz). simpl. auto.
Qed.

Lemma to_float_not_nan v f :
  to_float v = Ok f -> v <> Float nan -> is_nan f = false.
Proof.
  intros Hf Hv. apply Bool.not_true_iff_false. intros Hn.
  destruct v as [z|g]; cbn [to_float] in Hf.
  - apply is_nan_spec in Hn. rewrite (float_of_int_Ok _ _ Hf) in Hn.
    destruct z; [discriminate| |]; exact (binary_round_not_nan _ _ _ Hn).
  - injection Hf as ->. apply is_nan_eq in Hn. congruence.
Qed.

Lemma leb_refl_nonneg x : (0 <=? x) = true -> (x <=? x) = true.
Proof.
  rewrite !leb_ord. intros (_ & N & _). repeat split; try assumption. lia.
Qed.

(** The heat of one month, for a positive coefficient, a temperature that
    is a number and a positive finite number of hours. *)
Lemma month_heat_nonneg Kc i Tenv Tout dys nd m :
  month_step Kc i Tenv Tout dys = Ok m ->
  (0 <? Kc) = true -> Tenv <> Float nan ->
  to_float dys = Ok nd -> (0 <? nd) = true -> (nd * 24.0 <? infinity) = true ->
  (0 <=? Qm_kWh m) = true.
Proof.
  intros Hm HK HT Hnd Hpos Hfin.
  apply month_step_Ok in Hm
    as (name & t_m & COP & dT & _ & Ht & _ & Hd & _ & _ & _ & _ & _ & Hcase).
  destruct Hcase as [(_ & -> & _)|(Hle & _ & -> & _)]; [reflexivity|].
  apply mulf_Ok in Ht as (nd' & Hnd' & ->). rewrite Hnd in Hnd'.
  injection Hnd' as <-.
  apply fsub_Ok in Hd as (f & Hf & ->).
  pose proof (to_float_not_nan _ _ Hf HT) as Hn.
  pose proof (not_le_zero_pos _ (differential_not_nan _ Hn) Hle) as HdT.
  pose proof (ltb_leb _ _ HdT) as HdT'.
  destruct (mul_le_mono_l (T_room - f) (T_room - f) Kc) as [H0 _];
    [exact HdT'|apply leb_refl_nonneg, HdT'|exact HK|right; exact HdT|].
  destruct (mul_le_mono_r (Kc * (T_room - f)) (Kc * (T_room - f)) (nd * 24.0))
    as [H1 _];
    [exact H0|apply leb_refl_nonneg, H0|apply hours_pos, Hpos|left; exact Hfin|].
  exact H1.
Qed.

(** X8.  With a positive coefficient, ambient temperatures that are numbers
    and day counts that are positive with finite hours, no month of a
    returned result has a negative (or not-a-number) heat, the total heat is
    at least zero, and the SCOP is never negative: it is not-a-number or at
    least zero, even when the monthly COP and the electricity are
    negative. *)
Theorem heat_and_scop_never_negative env out dys n_units area q_H T_out s r :
  calculate_scop env out dys n_units area q_H T_out = Ok (s, r) ->
  (0 <? K r) = true ->
  ~ In (Float nan) env ->
  Forall (fun d => exists nd, to_float d = Ok nd /\ (0 <? nd) = true /\
                              (nd * 24.0 <? infinity) = true) dys ->
  Forall (fun m => (0 <=? Qm_kWh m) = true) (monthly r) /\
  (0 <=? Q_total_kWh r) = true /\
  (SCOP r <? 0) = false /\ (s <? 0) = false.
Proof.
  intros H HK Henv Hdys.
  apply calculate_scop_Ok in H as (P & Km & rs & _ & _ & Hrs & Hs & ->).
  cbn [K monthly Q_total_kWh SCOP] in *.
  assert (Hrows : Forall (fun m => (0 <=? Qm_kWh m) = true) rs).
  { apply Forall_forall. intros m Hin.
    apply In_nth_error in Hin as (j & Hj).
    destruct (month_rows_nth _ _ _ _ Hrs j m Hj) as (Te & To & dd & Hrow & Hstep).
    apply nth_error_In, zip3_In in Hrow as (HTe & _ & Hdd).
    rewrite Forall_forall in Hdys.
    destruct (Hdys _ Hdd) as (nd & Hnd & Hpos & Hfin).
    apply (month_heat_nonneg _ _ _ _ _ nd _ Hstep HK); try assumption.
    intros ->. exact (Henv HTe). }
  assert (HQ : (0 <=? float_sum (map Qm_kWh rs)) = true).
  { apply running_sum_nonneg; [reflexivity|].
    apply Forall_forall. intros x Hx. apply in_map_iff in Hx as (m & <- & Hin).
    rewrite Forall_forall in Hrows. apply Hrows, Hin. }
  assert (Hneg : (s <? 0) = false).
  { destruct (0 <? float_sum (map Pm_kWh rs)) eqn:HP.
    - rewrite (scop_ratio_pos _ _ HP) in Hs. injection Hs as <-.
      apply div_not_negative; assumption.
    - rewrite (scop_ratio_not_pos _ _ HP) in Hs. injection Hs as <-. reflexivity. }
  auto.
Qed.

Lemma heat_and_scop_never_negative_witness :
  reference_call = Ok reference_result /\
  (0 <=? Q_total_kWh (snd reference_result)) = true /\
  (SCOP (snd reference_result) <? 0) = false.
Proof.
  split; [exact reference_call_Ok|].
  destruct (heat_and_scop_never_negative env_temps out_temps days_in_month
              (Some (Int 21)) None None T_out_design_default
              (fst reference_result) (snd reference_result) reference_call_Ok)
    as (_ & HQ & HS & _).
  - reflexivity.
  - intros Hin. repeat (destruct Hin as [Hin|Hin]; [discriminate|]). exact Hin.
  - unfold days_in_month.
    repeat (apply Forall_cons;
            [eexists; split; [vm_compute; reflexivity|split; reflexivity]|]).
    apply Forall_nil.
  - split; assumption.
Defined.

End HeatSign.

(** ** Rounding of signed numbers *)

Section Signed.

Lemma ord_opp X : ord (SFopp X) = - ord X.
Proof.
  destruct X as [s|s| |s m e]; cbn [SFopp ord]; try lia;
    destruct s; cbn [negb cond_Zopp]; lia.
Qed.

Lemma valid_opp X : valid_binary (SFopp X) = valid_binary X.
Proof. destruct X; reflexivity. Qed.

Lemma not_nan_opp X : not_nan X -> not_nan (SFopp X).
Proof. destruct X; unfold not_nan; cbn [SFopp]; congruence. Qed.

Lemma SFopp_involutive X : SFopp (SFopp X) = X.
Proof. destruct X; cbn [SFopp]; rewrite ?Bool.negb_involutive; reflexivity. Qed.

Lemma binary_round_aux_opp s m e l :
  binary_round_aux prec emax (negb s) m e l
  = SFopp (binary_round_aux prec emax s m e l).
Proof.
  unfold binary_round_aux.
  destruct (shr_fexp prec emax m e l) as [mrs' e'].
  destruct (shr_fexp prec emax _ e' loc_Exact) as [mrs'' e''].
  destruct (shr_m mrs''); [reflexivity| |reflexivity].
  destruct (e'' <=? emax - prec); reflexivity.
Qed.

Lemma binary_round_opp s m e :
  binary_round prec emax (negb s) m e = SFopp (binary_round prec emax s m e).
Proof.
  unfold binary_round. destruct (shl_align m e _) as [mz ez].
  apply binary_round_aux_opp.
Qed.

Lemma SFmul_opp_l X Y : SF64mul (SFopp X) Y = SFopp (SF64mul X Y).
Proof.
  unfold SF64mul.
  destruct X as [sx|sx| |sx mx ex], Y as [sy|sy| |sy my ey];
    cbn [SFopp SFmul]; rewrite <- ?Bool.negb_xorb_l; try reflexivity.
  apply binary_round_aux_opp.
Qed.

Lemma SFmul_opp_r X Y : SF64mul X (SFopp Y) = SFopp (SF64mul X Y).
Proof. rewrite (SFmul_comm X), SFmul_opp_l, (SFmul_comm Y). reflexivity. Qed.

(** A valid number that is not not-a-number and lies strictly between the
    infinities is a zero or a finite number. *)
Lemma finite_cases X :
  not_nan X -> - Omax < ord X < Omax ->
  (exists s, X = S754_zero s) \/ (exists s m e, X = S754_finite s m e).
Proof.
  intros N H. destruct X as [s|s| |s m e]; [eauto| |congruence|eauto 6].
  exfalso. destruct s; cbn [ord cond_Zopp] in H; lia.
Qed.

Lemma nearest_nonneg V : 0 <= nearest V.
Proof. apply binary_round_nonneg. Qed.

Lemma nearest_le_Omax V : nearest V <= Omax.
Proof. apply (ord_range _ (binary_round_valid false _ _)). Qed.

Lemma ord_finite_true m e :
  ord (S754_finite true m e) = - ord (S754_finite false m e).
Proof. reflexivity. Qed.

(** The sum of two finite numbers is the exact sum [V] of their values,
    rounded to nearest on the side of its sign. *)
Lemma SFadd_ord X Y :
  valid_binary X = true -> valid_binary Y = true ->
  not_nan X -> not_nan Y ->
  - Omax < ord X < Omax -> - Omax < ord Y < Omax ->
  let R := SF64add X Y in
  let V := ord X + ord Y in
  not_nan R /\
  (V = 0 -> ord R = 0) /\
  (0 < V -> ord R = nearest V) /\
  (V < 0 -> ord R = - nearest (- V)).
Proof.
  intros VX VY NX NY FX FY R V.
  assert (Hfin : forall s m e, valid_binary (S754_finite s m e) = true ->
            let W := ord (S754_finite s m e) in
            W <> 0 /\ (0 < W -> W = nearest W) /\ (W < 0 -> W = - nearest (- W))).
  { intros s m e Hv. assert (Hv' : valid_binary (S754_finite false m e) = true)
      by (destruct s; exact Hv).
    pose proof (ord_finite_bounds _ _ Hv') as Hb.
    pose proof (nearest_id _ _ Hv') as Hid.
    destruct s; cbn [ord cond_Zopp] in *.
    - split; [lia|]. split; [lia|]. intros _. rewrite Z.opp_involutive. lia.
    - split; [lia|]. split; [lia|]. lia. }
  destruct (finite_cases X NX FX) as [(sx & ->)|(sx & mx & ex & ->)];
    destruct (finite_cases Y NY FY) as [(sy & ->)|(sy & my & ey & ->)];
    subst R V; unfold SF64add; cbn [SFadd].
  - split; [destruct sx, sy; discriminate|].
    split; [intros _; destruct sx, sy; reflexivity|]. cbn [ord]. split; lia.
  - cbn [ord]. rewrite Z.add_0_l. destruct (Hfin _ _ _ VY) as (H0 & Hp & Hn).
    split; [discriminate|]. split; [contradiction|]. split; assumption.
  - cbn [ord]. rewrite Z.add_0_r. destruct (Hfin _ _ _ VX) as (H0 & Hp & Hn).
    split; [discriminate|]. split; [contradiction|]. split; assumption.
  - assert (HX' : valid_binary (S754_finite false mx ex) = true)
      by (destruct sx; exact VX).
    assert (HY' : valid_binary (S754_finite false my ey) = true)
      by (destruct sy; exact VY).
    pose proof (valid_finite _ _ _ HX') as ((Hex & _) & _).
    pose proof (valid_finite _ _ _ HY') as ((Hey & _) & _).
    set (ez := Z.min ex ey).
    destruct (shl_align_spec mx ex ez) as [_ Hfx].
    destruct (shl_align_spec my ey ez) as [_ Hfy].
    replace (Z.min ex ez) with ez in Hfx by lia.
    replace (Z.min ey ez) with ez in Hfy by lia.
    rewrite Hfx, Hfy.
    set (N := cond_Zopp sx (Zpos mx * 2 ^ (ex - ez))
              + cond_Zopp sy (Zpos my * 2 ^ (ey - ez))).
    assert (HN : N * 2 ^ (ez + 1074)
                 = ord (S754_finite sx mx ex) + ord (S754_finite sy my ey)).
    { unfold N. rewrite Z.mul_add_distr_r, !aligned_units by lia. reflexivity. }
    pose proof (pow2_pos (ez + 1074) ltac:(lia)) as Hp.
    destruct N as [|p|p] eqn:EN; cbn [binary_normalize].
    + split; [discriminate|]. split; [reflexivity|]. split; lia.
    + split; [apply binary_round_not_nan|]. split; [lia|]. split; [|lia].
      intros _. rewrite binary_round_nearest by lia. rewrite HN. reflexivity.
    + split; [apply binary_round_not_nan|]. split; [lia|]. split; [lia|].
      intros _. change true with (negb false).
      rewrite binary_round_opp, ord_opp, binary_round_nearest by lia.
      rewrite <- HN. f_equal. f_equal. lia.
Qed.

End Signed.

Section SignedOrder.

(** Addition of finite numbers is monotone in both arguments. *)
Lemma SFadd_le X X' Y Y' :
  valid_binary X = true -> valid_binary X' = true ->
  valid_binary Y = true -> valid_binary Y' = true ->
  not_nan X -> not_nan X' -> not_nan Y -> not_nan Y' ->
  - Omax < ord X -> ord X <= ord X' -> ord X' < Omax ->
  - Omax < ord Y -> ord Y <= ord Y' -> ord Y' < Omax ->
  not_nan (SF64add X Y) /\ not_nan (SF64add X' Y') /\
  ord (SF64add X Y) <= ord (SF64add X' Y').
Proof.
  intros VX VX' VY VY' NX NX' NY NY' HX1 HX HX2 HY1 HY HY2.
  destruct (SFadd_ord X Y VX VY NX NY ltac:(lia) ltac:(lia)) as (N & H0 & Hp & Hn).
  destruct (SFadd_ord X' Y' VX' VY' NX' NY' ltac:(lia) ltac:(lia))
    as (N' & H0' & Hp' & Hn').
  split; [exact N|]. split; [exact N'|].
  pose proof (nearest_nonneg (ord X + ord Y)).
  pose proof (nearest_nonneg (- (ord X + ord Y))).
  pose proof (nearest_nonneg (ord X' + ord Y')).
  pose proof (nearest_nonneg (- (ord X' + ord Y'))).
  destruct (Z.lt_trichotomy (ord X + ord Y) 0) as [Hv|[Hv|Hv]];
    destruct (Z.lt_trichotomy (ord X' + ord Y') 0) as [Hv'|[Hv'|Hv']]; try lia.
  - rewrite (Hn Hv), (Hn' Hv').
    pose proof (nearest_le (- (ord X' + ord Y')) (- (ord X + ord Y))
                  ltac:(lia) ltac:(lia)). lia.
  - rewrite (Hp Hv), (Hp' Hv'). apply nearest_le; lia.
Qed.


Lemma ord_zero_cases X :
  valid_binary X = true -> not_nan X -> ord X = 0 -> exists s, X = S754_zero s.
Proof.
  intros VX NX H0. pose proof Omax_pos.
  destruct (finite_cases X NX ltac:(lia)) as [Hz|(s & m & e & ->)]; [exact Hz|].
  exfalso. assert (Hv : valid_binary (S754_finite false m e) = true)
    by (destruct s; exact VX).
  pose proof (ord_finite_bounds _ _ Hv).
  destruct s; cbn [ord cond_Zopp] in H0; lia.
Qed.

(** The square of a number whose magnitude is at most that of [M]. *)
Lemma SFsquare_le X M :
  valid_binary X = true -> valid_binary M = true ->
  not_nan X -> not_nan M ->
  - ord M <= ord X <= ord M -> ord M < Omax ->
  not_nan (SF64mul X X) /\ 0 <= ord (SF64mul X X) <= ord (SF64mul M M).
Proof.
  intros VX VM NX NM HX HM.
  assert (HMM : 0 <= ord (SF64mul M M)).
  { destruct (Z.eq_dec (ord M) 0) as [HM0|HM0].
    - destruct (ord_zero_cases M VM NM HM0) as (sm & ->).
      destruct sm; cbn; lia.
    - destruct (SFmul_le M M M VM VM VM NM NM NM ltac:(lia) ltac:(lia)
                  ltac:(left; lia)) as (_ & _ & H1). lia. }
  assert (Hpos : forall A, valid_binary A = true -> not_nan A ->
            0 <= ord A <= ord M ->
            not_nan (SF64mul A A) /\ 0 <= ord (SF64mul A A) <= ord (SF64mul M M)).
  { intros A VA NA HA.
    destruct (Z.eq_dec (ord A) 0) as [H0|H0].
    - destruct (ord_zero_cases A VA NA H0) as (sa & ->).
      change (SF64mul (S754_zero sa) (S754_zero sa)) with (S754_zero (xorb sa sa)).
      cbn [ord]. split; [discriminate|lia].
    - destruct (SFmul_le A M A VA VM VA NA NM NA ltac:(lia) ltac:(lia)
                  ltac:(left; lia)) as (N1 & _ & H1).
      destruct (SFmul_le A M M VA VM VM NA NM NM ltac:(lia) ltac:(lia)
                  ltac:(left; lia)) as (_ & _ & H2).
      rewrite (SFmul_comm M A) in H1. split; [exact N1|]. lia. }
  destruct (Z_lt_le_dec (ord X) 0) as [HXn|HXp].
  - replace (SF64mul X X) with (SF64mul (SFopp X) (SFopp X))
      by (rewrite SFmul_opp_l, SFmul_opp_r, SFopp_involutive; reflexivity).
    apply Hpos; rewrite ?valid_opp, ?ord_opp; try assumption;
      [apply not_nan_opp; assumption|lia].
  - apply Hpos; try assumption. lia.
Qed.

End SignedOrder.

(** ** Intervals of binary64 numbers *)

Section Intervals.

Local Open Scope float_scope.

Lemma is_finite_ord x :
  is_finite x = true <->
  not_nan (Prim2SF x) /\ (- Omax < ord (Prim2SF x) < Omax)%Z.
Proof.
  unfold is_finite, is_infinity, is_nan. rewrite !eqb_spec, abs_spec.
  pose proof (Prim2SF_valid x) as V. pose proof Omax_pos as HO.
  destruct (Prim2SF x) as [s|s| |s m e] eqn:E.
  - destruct s; cbn; split; try reflexivity;
      intros _; (split; [discriminate|lia]).
  - destruct s; cbn; split; try discriminate; intros (_ & H); lia.
  - cbn. split; [discriminate|]. intros (N & _). exfalso. apply N. reflexivity.
  - assert (Hv : valid_binary (S754_finite false m e) = true)
      by (destruct s; exact V).
    pose proof (ord_finite_bounds _ _ Hv) as Hb.
    rewrite (SFeqb_refl (S754_finite s m e)) by discriminate.
    cbn [SFabs negb orb]. split.
    + intros _. split; [discriminate|].
      destruct s; cbn [ord cond_Zopp]; lia.
    + intros _. reflexivity.
Qed.

Lemma between_ord lo hi x :
  between lo hi x = true <->
  not_nan (Prim2SF lo) /\ not_nan (Prim2SF hi) /\ not_nan (Prim2SF x) /\
  (- Omax < ord (Prim2SF lo) /\ ord (Prim2SF lo) <= ord (Prim2SF x) /\
   ord (Prim2SF x) <= ord (Prim2SF hi) /\ ord (Prim2SF hi) < Omax)%Z.
Proof.
  unfold between. rewrite !Bool.andb_true_iff, !is_finite_ord, !leb_ord.
  split.
  - intros (((( Nl & Hl) & (Nh & Hh)) & (_ & Nx & Hlx)) & (_ & _ & Hxh)).
    repeat split; try assumption; lia.
  - intros (Nl & Nh & Nx & Hl & Hlx & Hxh & Hh).
    repeat split; try assumption; lia.
Qed.

Lemma between_finite lo hi x : between lo hi x = true -> is_finite x = true.
Proof.
  rewrite between_ord, is_finite_ord. intros (_ & _ & N & H). split; [exact N|lia].
Qed.






Lemma square_between m x :
  between (- m) m x = true -> is_finite (m * m) = true ->
  between 0 (m * m) (x * x) = true.
Proof.
  rewrite !between_ord, is_finite_ord, !mul_spec, opp_spec, ord_opp, Prim2SF_0.
  cbn [ord].
  intros (_ & Nm & Nx & Hx) (Nmm & Hmm).
  destruct (SFsquare_le (Prim2SF x) (Prim2SF m)) as (N & H);
    try apply Prim2SF_valid; try assumption; try lia.
  pose proof Omax_pos.
  repeat split; try assumption; try discriminate; lia.
Qed.

End Intervals.

(** ** Integers given where floats are expected *)

Section IntegerInputs.

Lemma binary_normalize_ord z :
  let R := binary_normalize prec emax z 0 false in
  not_nan R /\
  (z = 0 -> ord R = 0) /\
  (0 < z -> ord R = nearest (z * 2 ^ 1074)) /\
  (z < 0 -> ord R = - nearest (- z * 2 ^ 1074)).
Proof.
  destruct z as [|p|p]; cbn [binary_normalize].
  - split; [discriminate|]. split; [reflexivity|]. split; lia.
  - split; [apply binary_round_not_nan|]. split; [lia|]. split; [|lia].
    intros _. rewrite binary_round_nearest by lia. reflexivity.
  - split; [apply binary_round_not_nan|]. split; [lia|]. split; [lia|].
    intros _. change true with (negb false).
    rewrite binary_round_opp, ord_opp, binary_round_nearest by lia. reflexivity.
Qed.

(** Conversion to binary64 is monotone. *)
Lemma binary_normalize_le z1 z2 :
  z1 <= z2 ->
  ord (binary_normalize prec emax z1 0 false)
  <= ord (binary_normalize prec emax z2 0 false).
Proof.
  intros Hz.
  destruct (binary_normalize_ord z1) as (_ & H0 & Hp & Hn).
  destruct (binary_normalize_ord z2) as (_ & H0' & Hp' & Hn').
  pose proof (nearest_nonneg (z1 * 2 ^ 1074)).
  pose proof (nearest_nonneg (- z1 * 2 ^ 1074)).
  pose proof (nearest_nonneg (z2 * 2 ^ 1074)).
  pose proof (nearest_nonneg (- z2 * 2 ^ 1074)).
  pose proof (pow2_pos 1074 ltac:(lia)) as Hpow.
  destruct (Z.lt_trichotomy z1 0) as [Hv|[Hv|Hv]];
    destruct (Z.lt_trichotomy z2 0) as [Hv'|[Hv'|Hv']]; try lia.
  - rewrite (Hn Hv), (Hn' Hv').
    pose proof (nearest_le (- z2 * 2 ^ 1074) (- z1 * 2 ^ 1074)
                  ltac:(nia) ltac:(nia)). lia.
  - rewrite (Hp Hv), (Hp' Hv'). apply nearest_le; nia.
Qed.

Lemma binary_normalize_small z :
  Z.abs z <= 2 ^ 53 ->
  - Omax < ord (binary_normalize prec emax z 0 false) < Omax.
Proof.
  intros Hz.
  pose proof (binary_normalize_le (- 2 ^ 53) z ltac:(lia)) as H1.
  pose proof (binary_normalize_le z (2 ^ 53) ltac:(lia)) as H2.
  assert (Hlo : - Omax < ord (binary_normalize prec emax (- 2 ^ 53) 0 false))
    by (apply Z.ltb_lt; vm_compute; reflexivity).
  assert (Hhi : ord (binary_normalize prec emax (2 ^ 53) 0 false) < Omax)
    by (apply Z.ltb_lt; vm_compute; reflexivity).
  lia.
Qed.

Local Open Scope float_scope.

Lemma finite_not_infinity x : is_finite x = true -> is_infinity x = false.
Proof.
  unfold is_finite. destruct (is_nan x), (is_infinity x); simpl; congruence.
Qed.

Lemma float_of_int_small z :
  (Z.abs z <= 2 ^ 53)%Z ->
  exists f, float_of_int z = Ok f /\
            Prim2SF f = binary_normalize prec emax z 0 false.
Proof.
  intros Hz. unfold float_of_int.
  pose proof (Prim2SF_SF2Prim _ (binary_normalize_valid z)) as E.
  assert (Hfin : is_finite (SF2Prim (binary_normalize prec emax z 0 false)) = true).
  { apply is_finite_ord. rewrite E.
    split; [apply binary_normalize_ord|apply binary_normalize_small, Hz]. }
  rewrite (finite_not_infinity _ Hfin). eexists. split; [reflexivity|exact E].
Qed.

Lemma float_of_int_between lo hi z flo fhi :
  (lo <= z <= hi)%Z -> (Z.abs lo <= 2 ^ 53)%Z -> (Z.abs hi <= 2 ^ 53)%Z ->
  float_of_int lo = Ok flo -> float_of_int hi = Ok fhi ->
  exists f, float_of_int z = Ok f /\ between flo fhi f = true.
Proof.
  intros Hz Hlo Hhi Hflo Hfhi.
  destruct (float_of_int_small z ltac:(lia)) as (f & Hf & E).
  exists f. split; [exact Hf|]. apply between_ord.
  rewrite (float_of_int_Ok _ _ Hflo), (float_of_int_Ok _ _ Hfhi), E.
  pose proof (binary_normalize_small lo Hlo).
  pose proof (binary_normalize_small hi Hhi).
  pose proof (binary_normalize_le lo z ltac:(lia)).
  pose proof (binary_normalize_le z hi ltac:(lia)).
  repeat split; try apply binary_normalize_ord; lia.
Qed.

End IntegerInputs.

(** ** Seasons in the usual range of temperatures *)

Section UsualRange.

Local Open Scope float_scope.

Lemma num_between_float lo hi flo fhi v :
  float_of_int lo = Ok flo -> float_of_int hi = Ok fhi ->
  (Z.abs lo <= 2 ^ 53)%Z -> (Z.abs hi <= 2 ^ 53)%Z ->
  num_between lo hi v = true ->
  exists f, to_float v = Ok f /\ between flo fhi f = true.
Proof.
  intros Hlo Hhi Hl Hh H. destruct v as [z|f]; cbn [num_between to_float] in *.
  - apply Bool.andb_true_iff in H as [H1 H2].
    apply Z.leb_le in H1, H2.
    apply (float_of_int_between lo hi); try assumption. lia.
  - rewrite Hlo, Hhi in H. eauto.
Qed.







End UsualRange.

(** ** Where each exception comes from *)

Section ErrorCauses.

Local Open Scope float_scope.









Lemma fdiv_delta_T_max_Ok x : fdiv x delta_T_max = Ok (x / delta_T_max).
Proof. reflexivity. Qed.








End ErrorCauses.

(** ** Monotone totals *)

Section MonotoneTotals.

Lemma SFadd_inf_nonneg X Y :
  nonneg_shape X -> nonneg_shape Y -> ord X = Omax \/ ord Y = Omax ->
  SF64add X Y = S754_infinity false.
Proof.
  pose proof Omax_pos as HO.
  intros [sx|mx ex|] [sy|my ey|] H; try reflexivity; exfalso;
    cbn [ord cond_Zopp] in H.
  - lia.
  - pose proof H as H'. destruct H as [H|H]; [lia|].
Abort.

End MonotoneTotals.

(** ** Monotone totals *)

Section MonotoneTotals.

Lemma nonneg_not_below_Omax X :
  valid_binary X = true -> nonneg_shape X -> Omax <= ord X ->
  X = S754_infinity false.
Proof.
  pose proof Omax_pos as HO.
  intros V S H. destruct S as [s|m e|]; [cbn [ord] in H; lia| |reflexivity].
  pose proof (ord_finite_bounds _ _ V). cbn [ord cond_Zopp] in H. lia.
Qed.

Lemma SFadd_inf_l Y : nonneg_shape Y -> SF64add (S754_infinity false) Y = S754_infinity false.
Proof. intros [sy|my ey|]; reflexivity. Qed.

Lemma SFadd_inf_r X : nonneg_shape X -> SF64add X (S754_infinity false) = S754_infinity false.
Proof. intros [sx|mx ex|]; reflexivity. Qed.

Local Open Scope float_scope.

(** Sums of non-negative numbers are monotone, infinite ones included. *)
Lemma add_le_mono_nonneg x x' y y' :
  (0 <=? x) = true -> (x <=? x') = true ->
  (0 <=? y) = true -> (y <=? y') = true ->
  (0 <=? x + y) = true /\ (x + y <=? x' + y') = true.
Proof.
  intros Hx Hxx Hy Hyy.
  pose proof (leb_trans _ _ _ Hx Hxx) as Hx'.
  pose proof (leb_trans _ _ _ Hy Hyy) as Hy'.
  split; [apply add_nonneg; assumption|].
  pose proof (add_nonneg _ _ Hx Hy) as Hs.
  pose proof (add_nonneg _ _ Hx' Hy') as Hs'.
  apply nonneg_shape_leb in Hx, Hy, Hx', Hy', Hs, Hs'.
  apply leb_ord in Hxx as (Nx & Nx' & Hxx).
  apply leb_ord in Hyy as (Ny & Ny' & Hyy).
  apply leb_ord.
  split; [apply (nonneg_shape_ord _ Hs)|]. split; [apply (nonneg_shape_ord _ Hs')|].
  pose proof (proj2 (nonneg_shape_ord _ Hx)) as Ox.
  pose proof (proj2 (nonneg_shape_ord _ Hy)) as Oy.
  pose proof Omax_pos as HO.
  rewrite !add_spec in *.
  destruct (Z_lt_le_dec (ord (Prim2SF x')) Omax) as [Fx|Ix].
  - destruct (Z_lt_le_dec (ord (Prim2SF y')) Omax) as [Fy|Iy].
    + apply SFadd_le; try apply Prim2SF_valid; try assumption; lia.
    + rewrite (nonneg_not_below_Omax _ (Prim2SF_valid y') Hy' Iy).
      rewrite (SFadd_inf_r _ Hx'). cbn [ord cond_Zopp].
      rewrite <- add_spec. apply (ord_range _ (Prim2SF_valid (x + y))).
  - rewrite (nonneg_not_below_Omax _ (Prim2SF_valid x') Hx' Ix).
    rewrite (SFadd_inf_l _ Hy'). cbn [ord cond_Zopp].
    rewrite <- add_spec. apply (ord_range _ (Prim2SF_valid (x + y))).
Qed.

Lemma running_sum_le q q' xs xs' :
  (0 <=? q) = true -> (q <=? q') = true ->
  Forall2 (fun x x' => (0 <=? x) = true /\ (x <=? x') = true) xs xs' ->
  (running_sum q xs <=? running_sum q' xs') = true.
Proof.
  unfold running_sum. intros Hq Hqq Hxs. revert q q' Hq Hqq.
  induction Hxs as [|x x' xs xs' [Hx Hxx] _ IH]; intros q q' Hq Hqq; [exact Hqq|].
  cbn [fold_left].
  destruct (add_le_mono_nonneg q q' x x' Hq Hqq Hx Hxx) as [H0 Hle].
  apply IH; assumption.
Qed.

(** The heat of one month is monotone in the coefficient. *)
Lemma month_heat_le_K K1 K2 i Tenv Tout dys nd m1 m2 :
  month_step K1 i Tenv Tout dys = Ok m1 ->
  month_step K2 i Tenv Tout dys = Ok m2 ->
  (0 <? K1) = true -> (K1 <=? K2) = true -> Tenv <> Float nan ->
  to_float dys = Ok nd -> (0 <? nd) = true -> (nd * 24.0 <? infinity) = true ->
  (0 <=? Qm_kWh m1) = true /\ (Qm_kWh m1 <=? Qm_kWh m2) = true.
Proof.
  intros H1 H2 HK HKK HT Hnd Hpos Hfin.
  split; [apply (month_heat_nonneg _ _ _ _ _ nd _ H1); assumption|].
  apply month_step_Ok in H1
    as (name & t_m & COP & dT & _ & Ht & _ & Hd & _ & _ & _ & _ & _ & Hcase1).
  apply month_step_Ok in H2
    as (name' & t_m' & COP' & dT' & _ & Ht' & _ & Hd' & _ & _ & _ & _ & _ & Hcase2).
  rewrite Ht in Ht'. injection Ht' as <-. rewrite Hd in Hd'. injection Hd' as <-.
  apply mulf_Ok in Ht as (nd' & Hnd' & ->). rewrite Hnd in Hnd'.
  injection Hnd' as <-.
  apply fsub_Ok in Hd as (f & Hf & ->).
  destruct Hcase1 as [(Hle & -> & _)|(Hle & _ & -> & _)];
    destruct Hcase2 as [(Hle' & -> & _)|(Hle' & _ & -> & _)]; try congruence;
    [reflexivity|].
  pose proof (to_float_not_nan _ _ Hf HT) as Hn.
  pose proof (not_le_zero_pos _ (differential_not_nan _ Hn) Hle) as HdT.
  destruct (mul_le_mono_r K1 K2 (T_room - f)) as [H0 H12];
    [apply ltb_leb, HK|exact HKK|exact HdT|right; exact HK|].
  destruct (mul_le_mono_r (K1 * (T_room - f)) (K2 * (T_room - f)) (nd * 24.0))
    as [_ Hle2];
    [exact H0|exact H12|apply hours_pos, Hpos|left; exact Hfin|].
  exact Hle2.
Qed.

Lemma month_rows_le_K K1 K2 rows : forall i rs1 rs2,
  month_rows K1 i rows = Ok rs1 -> month_rows K2 i rows = Ok rs2 ->
  (0 <? K1) = true -> (K1 <=? K2) = true ->
  Forall (fun row => fst (fst row) <> Float nan /\
            exists nd, to_float (snd row) = Ok nd /\ (0 <? nd) = true /\
                       (nd * 24.0 <? infinity) = true) rows ->
  Forall2 (fun m1 m2 => (0 <=? Qm_kWh m1) = true /\
                        (Qm_kWh m1 <=? Qm_kWh m2) = true) rs1 rs2.
Proof.
  induction rows as [|[[Tenv Tout] dys] rows IH]; intros i rs1 rs2 H1 H2 HK HKK Hrows.
  - injection H1 as <-. injection H2 as <-. constructor.
  - cbn [month_rows] in H1, H2.
    apply bind_Ok_inv in H1 as (m1 & Hm1 & H1).
    apply bind_Ok_inv in H1 as (rs1' & Hrs1 & H1). injection H1 as <-.
    apply bind_Ok_inv in H2 as (m2 & Hm2 & H2).
    apply bind_Ok_inv in H2 as (rs2' & Hrs2 & H2). injection H2 as <-.
    inversion Hrows as [|? ? (HT & nd & Hnd & Hpos & Hfin) Hrows']; subst.
    cbn [fst snd] in *. constructor.
    + apply (month_heat_le_K K1 K2 i Tenv Tout dys nd); assumption.
    + apply (IH (S i)); assumption.
Qed.

End MonotoneTotals.

Section CoefficientMonotone.

Local Open Scope float_scope.

Lemma zip3_rows_Forall (env out dys : list num) (P Q : num -> Prop) :
  (forall T, In T env -> P T) -> Forall Q dys ->
  Forall (fun row : num * num * num => P (fst (fst row)) /\ Q (snd row))
    (zip3 env out dys).
Proof.
  intros HP HQ. apply Forall_forall. intros [[T To] d] Hin.
  apply zip3_In in Hin as (HT & _ & Hd). cbn [fst snd]. split; [apply HP, HT|].
  rewrite Forall_forall in HQ. apply HQ, Hd.
Qed.

Lemma Forall2_heat rs1 rs2 :
  Forall2 (fun m1 m2 => (0 <=? Qm_kWh m1) = true /\
                        (Qm_kWh m1 <=? Qm_kWh m2) = true) rs1 rs2 ->
  Forall2 (fun x x' => (0 <=? x) = true /\ (x <=? x') = true)
    (map Qm_kWh rs1) (map Qm_kWh rs2).
Proof. induction 1; constructor; assumption. Qed.

(** X11.  A larger coefficient never lowers the heat.  For two returned
    calls on the same monthly data whose coefficients satisfy
    [0 < K1 <= K2], with ambient temperatures that are numbers and day
    counts that are positive with finite hours, every month of the second
    delivers at least the heat of the same month of the first, and so does
    the season. *)
Theorem larger_coefficient_more_heat
    env out dys n1 area1 q1 T1 n2 area2 q2 T2 s1 r1 s2 r2 :
  calculate_scop env out dys n1 area1 q1 T1 = Ok (s1, r1) ->
  calculate_scop env out dys n2 area2 q2 T2 = Ok (s2, r2) ->
  (0 <? K r1) = true -> (K r1 <=? K r2) = true ->
  ~ In (Float nan) env ->
  Forall (fun d => exists nd, to_float d = Ok nd /\ (0 <? nd) = true /\
                              (nd * 24.0 <? infinity) = true) dys ->
  Forall2 (fun m1 m2 => (Qm_kWh m1 <=? Qm_kWh m2) = true)
    (monthly r1) (monthly r2) /\
  (Q_total_kWh r1 <=? Q_total_kWh r2) = true.
Proof.
  intros H1 H2 HK HKK Henv Hdys.
  apply calculate_scop_Ok in H1 as (P1 & Km1 & rs1 & _ & _ & Hrs1 & _ & ->).
  apply calculate_scop_Ok in H2 as (P2 & Km2 & rs2 & _ & _ & Hrs2 & _ & ->).
  cbn [K monthly Q_total_kWh] in *.
  assert (Hrows : Forall2 (fun m1 m2 => (0 <=? Qm_kWh m1) = true /\
                             (Qm_kWh m1 <=? Qm_kWh m2) = true) rs1 rs2).
  { apply (month_rows_le_K _ _ _ _ _ _ Hrs1 Hrs2 HK HKK).
    apply (zip3_rows_Forall env out dys (fun T => T <> Float nan)
             (fun d => exists nd, to_float d = Ok nd /\ (0 <? nd) = true /\
                                  (nd * 24.0 <? infinity) = true));
      [|exact Hdys].
    intros T HT ->. exact (Henv HT). }
  split.
  - clear -Hrows. induction Hrows as [|m1 m2 rs1 rs2 [_ H] _ IH];
      constructor; assumption.
  - apply running_sum_le; [reflexivity|reflexivity|apply Forall2_heat, Hrows].
Qed.

Lemma larger_coefficient_more_heat_witness :
  exists s2 r2,
    calculate_scop env_temps out_temps days_in_month
      (Some (Int 22)) None None T_out_design_default = Ok (s2, r2) /\
    (K (snd reference_result) <=? K r2) = true /\
    (Q_total_kWh (snd reference_result) <=? Q_total_kWh r2) = true.
Proof.
  destruct (calculate_scop env_temps out_temps days_in_month
              (Some (Int 22)) None None T_out_design_default)
    as [[s2 r2]|e] eqn:E; [|exfalso; revert E; vm_compute; discriminate].
  exists s2, r2. split; [reflexivity|].
  assert (HK : (K (snd reference_result) <=? K r2) = true).
  { revert E. vm_compute. intros E. injection E as _ <-. reflexivity. }
  split; [exact HK|].
  apply (larger_coefficient_more_heat env_temps out_temps days_in_month
           (Some (Int 21)) None None T_out_design_default
           (Some (Int 22)) None None T_out_design_default
           (fst reference_result) (snd reference_result) s2 r2
           reference_call_Ok E); [reflexivity|exact HK| |].
  - intros Hin. repeat (destruct Hin as [Hin|Hin]; [discriminate|]). exact Hin.
  - unfold days_in_month.
    repeat (apply Forall_cons;
            [eexists; split; [vm_compute; reflexivity|split; reflexivity]|]).
    apply Forall_nil.
Defined.

End CoefficientMonotone.

(** ** Colder seasons *)

Section ColderSeason.

Lemma at_most_neg_Omax X :
  valid_binary X = true -> not_nan X -> ord X <= - Omax ->
  X = S754_infinity true.
Proof.
  pose proof Omax_pos as HO. intros V N H.
  destruct X as [s|s| |s m e]; [cbn [ord] in H; lia| |congruence|].
  - destruct s; [reflexivity|cbn [ord cond_Zopp] in H; lia].
  - assert (Hv : valid_binary (S754_finite false m e) = true)
      by (destruct s; exact V).
    pose proof (ord_finite_bounds _ _ Hv).
    destruct s; cbn [ord cond_Zopp] in H; lia.
Qed.

Local Open Scope float_scope.

(** The differential does not shrink when the temperature falls, as long
    as the smaller differential is positive. *)
Lemma differential_le x x' :
  (x <=? x') = true -> (0 <? T_room - x') = true ->
  (T_room - x' <=? T_room - x) = true.
Proof.
  rewrite !leb_ord, ltb_ord, !sub_spec, Prim2SF_0. cbn [ord].
  intros (Nx & Nx' & Hle) (_ & _ & Hpos).
  pose proof (Prim2SF_valid T_room) as Va. pose proof (Prim2SF_valid x) as Vx.
  pose proof (Prim2SF_valid x') as Vx'. pose proof Omax_pos as HO.
  pose proof (ord_range _ (Prim2SF_valid (T_room - x'))) as R2.
  rewrite sub_spec in R2.
  rewrite Prim2SF_T_room in *.
  destruct (SFsub_ord false _ _ (Prim2SF x) Va Vx Nx) as (N1 & _ & H1 & H1i).
  destruct (SFsub_ord false _ _ (Prim2SF x') Va Vx' Nx') as (N2 & H2n & H2 & H2i).
  split; [exact N2|]. split; [exact N1|].
  set (A := S754_finite false 5629499534213120 (-48)) in *.
  assert (HV2 : (0 < ord A - ord (Prim2SF x'))%Z) by lia.
  pose proof (ord_range _ Vx) as Rx. pose proof (ord_range _ Vx') as Rx'.
  destruct (Z.eq_dec (ord (Prim2SF x)) (- Omax)) as [Ex|Ex].
  - rewrite (H1i (at_most_neg_Omax _ Vx Nx ltac:(lia))). apply R2.
  - assert (Hx : Prim2SF x <> S754_infinity true).
    { intros E. rewrite E in Ex. cbn [ord cond_Zopp] in Ex. lia. }
    assert (Hx' : Prim2SF x' <> S754_infinity true).
    { intros E. rewrite E in Hle. cbn [ord cond_Zopp] in Hle. lia. }
    rewrite (H2 HV2 Hx'), (H1 ltac:(lia) Hx). apply nearest_le; lia.
Qed.

(** The heat of one month does not fall when the ambient temperature
    falls. *)
Lemma month_heat_le_ambient Kc i T1 T2 Tout dys f1 f2 nd m1 m2 :
  month_step Kc i T1 Tout dys = Ok m1 ->
  month_step Kc i T2 Tout dys = Ok m2 ->
  to_float T1 = Ok f1 -> to_float T2 = Ok f2 -> (f1 <=? f2) = true ->
  (0 <? Kc) = true ->
  to_float dys = Ok nd -> (0 <? nd) = true -> (nd * 24.0 <? infinity) = true ->
  (0 <=? Qm_kWh m2) = true /\ (Qm_kWh m2 <=? Qm_kWh m1) = true.
Proof.
  intros H1 H2 Hf1 Hf2 Hle HK Hnd Hpos Hfin.
  assert (Hn1 : is_nan f1 = false).
  { apply Bool.not_true_iff_false. rewrite is_nan_spec.
    apply leb_ord in Hle as (N & _). exact N. }
  assert (Hn2 : is_nan f2 = false).
  { apply Bool.not_true_iff_false. rewrite is_nan_spec.
    apply leb_ord in Hle as (_ & N & _). exact N. }
  assert (HT1 : T1 <> Float nan).
  { intros ->. cbn in Hf1. injection Hf1 as <-. discriminate. }
  assert (HT2 : T2 <> Float nan).
  { intros ->. cbn in Hf2. injection Hf2 as <-. discriminate. }
  pose proof (month_heat_nonneg _ _ _ _ _ nd _ H1 HK HT1 Hnd Hpos Hfin) as Hq1.
  pose proof (month_heat_nonneg _ _ _ _ _ nd _ H2 HK HT2 Hnd Hpos Hfin) as Hq2.
  split; [exact Hq2|].
  apply month_step_Ok in H1
    as (name & t_m & COP & dT & _ & Ht & _ & Hd & _ & _ & _ & _ & _ & Hcase1).
  apply month_step_Ok in H2
    as (name' & t_m' & COP' & dT' & _ & Ht' & _ & Hd' & _ & _ & _ & _ & _ & Hcase2).
  rewrite Ht in Ht'. injection Ht' as <-.
  apply mulf_Ok in Ht as (nd' & Hnd' & ->). rewrite Hnd in Hnd'.
  injection Hnd' as <-.
  apply fsub_Ok in Hd as (g1 & Hg1 & ->). rewrite Hf1 in Hg1. injection Hg1 as <-.
  apply fsub_Ok in Hd' as (g2 & Hg2 & ->). rewrite Hf2 in Hg2. injection Hg2 as <-.
  destruct Hcase2 as [(Hle2 & HQ2 & _)|(Hle2 & _ & HQ2 & _)].
  { rewrite HQ2. exact Hq1. }
  pose proof (not_le_zero_pos _ (differential_not_nan _ Hn2) Hle2) as HdT2.
  pose proof (differential_le _ _ Hle HdT2) as Hd21.
  pose proof (ltb_leb_trans _ _ _ HdT2 Hd21) as HdT1.
  destruct Hcase1 as [(Hle1 & _)|(_ & _ & HQ1 & _)].
  { apply pos_not_le_zero in HdT1. congruence. }
  rewrite HQ1, HQ2.
  destruct (mul_le_mono_l (T_room - f2) (T_room - f1) Kc) as [H0 H12];
    [apply ltb_leb, HdT2|exact Hd21|exact HK|right; exact HdT2|].
  destruct (mul_le_mono_r (Kc * (T_room - f2)) (Kc * (T_room - f1)) (nd * 24.0))
    as [_ Hle3];
    [exact H0|exact H12|apply hours_pos, Hpos|left; exact Hfin|].
  exact Hle3.
Qed.

End ColderSeason.

Section ColderSeasonTotals.

Local Open Scope float_scope.

Lemma month_rows_le_ambient Kc env1 env2 :
  Forall2 (fun T1 T2 => exists f1 f2, to_float T1 = Ok f1 /\
                          to_float T2 = Ok f2 /\ (f1 <=? f2) = true) env1 env2 ->
  forall out dys i rs1 rs2,
  month_rows Kc i (zip3 env1 out dys) = Ok rs1 ->
  month_rows Kc i (zip3 env2 out dys) = Ok rs2 ->
  (0 <? Kc) = true ->
  Forall (fun d => exists nd, to_float d = Ok nd /\ (0 <? nd) = true /\
                              (nd * 24.0 <? infinity) = true) dys ->
  Forall2 (fun m2 m1 => (0 <=? Qm_kWh m2) = true /\
                        (Qm_kWh m2 <=? Qm_kWh m1) = true) rs2 rs1.
Proof.
  induction 1 as [|T1 T2 env1 env2 (f1 & f2 & Hf1 & Hf2 & Hle) _ IH];
    intros out dys i rs1 rs2 H1 H2 HK Hdys.
  - injection H1 as <-. injection H2 as <-. constructor.
  - destruct out as [|To out];
      [injection H1 as <-; injection H2 as <-; constructor|].
    destruct dys as [|dd dys];
      [injection H1 as <-; injection H2 as <-; constructor|].
    cbn [zip3 month_rows] in H1, H2.
    apply bind_Ok_inv in H1 as (m1 & Hm1 & H1).
    apply bind_Ok_inv in H1 as (rs1' & Hrs1 & H1). injection H1 as <-.
    apply bind_Ok_inv in H2 as (m2 & Hm2 & H2).
    apply bind_Ok_inv in H2 as (rs2' & Hrs2 & H2). injection H2 as <-.
    inversion Hdys as [|? ? (nd & Hnd & Hpos & Hfin) Hdys']; subst.
    constructor.
    + apply (month_heat_le_ambient Kc i T1 T2 To dd f1 f2 nd); assumption.
    + apply (IH out dys (S i)); assumption.
Qed.

(** X12.  A colder season never delivers less heat.  For two returned
    calls with the same sizing, supply temperatures and day counts, where
    every ambient temperature of the first is at most that of the second,
    with a positive coefficient and day counts that are positive with
    finite hours, every month of the first delivers at least the heat of
    the same month of the second, and so does the season. *)
Theorem colder_season_more_heat
    env1 env2 out dys n_units area q_H T_out s1 r1 s2 r2 :
  calculate_scop env1 out dys n_units area q_H T_out = Ok (s1, r1) ->
  calculate_scop env2 out dys n_units area q_H T_out = Ok (s2, r2) ->
  Forall2 (fun T1 T2 => exists f1 f2, to_float T1 = Ok f1 /\
                          to_float T2 = Ok f2 /\ (f1 <=? f2) = true) env1 env2 ->
  (0 <? K r1) = true ->
  Forall (fun d => exists nd, to_float d = Ok nd /\ (0 <? nd) = true /\
                              (nd * 24.0 <? infinity) = true) dys ->
  K r2 = K r1 /\
  Forall2 (fun m2 m1 => (Qm_kWh m2 <=? Qm_kWh m1) = true)
    (monthly r2) (monthly r1) /\
  (Q_total_kWh r2 <=? Q_total_kWh r1) = true.
Proof.
  intros H1 H2 Henv HK Hdys.
  apply calculate_scop_Ok in H1 as (P1 & Km1 & rs1 & HP1 & HK1 & Hrs1 & _ & ->).
  apply calculate_scop_Ok in H2 as (P2 & Km2 & rs2 & HP2 & HK2 & Hrs2 & _ & ->).
  cbn [K monthly Q_total_kWh] in *.
  rewrite HP1 in HP2. injection HP2 as <-.
  rewrite HK1 in HK2. injection HK2 as <-.
  pose proof (month_rows_le_ambient _ _ _ Henv _ _ _ _ _ Hrs1 Hrs2 HK Hdys)
    as Hrows.
  split; [reflexivity|]. split.
  - clear -Hrows. induction Hrows as [|m2 m1 rs2 rs1 [_ H] _ IH];
      constructor; assumption.
  - apply running_sum_le; [reflexivity|reflexivity|].
    clear -Hrows. induction Hrows; constructor; assumption.
Qed.

Lemma colder_season_more_heat_witness :
  exists s1 r1,
    calculate_scop (map Float [-1.5; -2.2; -3.8; -2.5; 0.0; 4.5])
      out_temps days_in_month (Some (Int 21)) None None T_out_design_default
    = Ok (s1, r1) /\
    (Q_total_kWh (snd reference_result) <=? Q_total_kWh r1) = true.
Proof.
  destruct (calculate_scop (map Float [-1.5; -2.2; -3.8; -2.5; 0.0; 4.5])
              out_temps days_in_month (Some (Int 21)) None None
              T_out_design_default)
    as [[s1 r1]|e] eqn:E; [|exfalso; revert E; vm_compute; discriminate].
  exists s1, r1. split; [reflexivity|].
  apply (colder_season_more_heat
           (map Float [-1.5; -2.2; -3.8; -2.5; 0.0; 4.5]) env_temps
           out_temps days_in_month (Some (Int 21)) None None
           T_out_design_default s1 r1
           (fst reference_result) (snd reference_result) E reference_call_Ok).
  - unfold env_temps. cbn [map].
    repeat (apply Forall2_cons;
            [eexists; eexists; split; [reflexivity|split; reflexivity]|]).
    apply Forall2_nil.
  - revert E. vm_compute. intros E. injection E as _ <-. reflexivity.
  - unfold days_in_month.
    repeat (apply Forall_cons;
            [eexists; split; [vm_compute; reflexivity|split; reflexivity]|]).
    apply Forall_nil.
Defined.

End ColderSeasonTotals.

(** ** Sizing parameters in the usual range *)

Section UsualSizing.

Local Open Scope float_scope.

Lemma num_between_to_float lo hi v :
  (Z.abs lo <= 2 ^ 53)%Z -> (Z.abs hi <= 2 ^ 53)%Z ->
  num_between lo hi v = true -> exists f, to_float v = Ok f.
Proof.
  intros Hlo Hhi H. destruct v as [z|f]; [|cbn; eauto].
  cbn [num_between] in H. apply Bool.andb_true_iff in H as [H1 H2].
  apply Z.leb_le in H1, H2.
  destruct (float_of_int_small z ltac:(lia)) as (f & Hf & _). cbn. eauto.
Qed.

Lemma P_hmax_design_returns T_out :
  num_between (-1000) 1000 T_out = true -> exists P, P_hmax_design T_out = Ok P.
Proof.
  intros H.
  destruct (num_between_float (-1000) 1000 (-1000) 1000 T_out)
    as (To & HTo & Hb); try reflexivity; try assumption; try (simpl; lia).
  unfold P_hmax_design.
  change (pow2 (Float T_design)) with (Ok (Float (T_design * T_design))).
  cbn [bind]. unfold fmul at 1. cbn [to_float bind].
  assert (Hsq : exists Tsq, (sq <- pow2 T_out ;; fmul c1 sq) = Ok (c1 * Tsq)).
  { destruct T_out as [z|f].
    - cbn [num_between] in H. apply Bool.andb_true_iff in H as [H1 H2].
      apply Z.leb_le in H1, H2.
      destruct (float_of_int_small (z * z)) as (Tsq & HTsq & _).
      { assert (z * z <= 1000 * 1000)%Z by nia. simpl. nia. }
      exists Tsq. unfold fmul. cbn [pow2 bind to_float]. rewrite HTsq. reflexivity.
    - cbn [to_float] in HTo. injection HTo as <-.
      pose proof (square_between 1000 f Hb eq_refl) as Hs.
      exists (f * f). unfold pow2.
      rewrite (finite_not_infinity _ (between_finite _ _ _ Hs)). reflexivity. }
  destruct Hsq as (Tsq & HTsq).
  destruct (pow2 T_out) as [sq|e]; [|discriminate]. cbn [bind] in *.
  rewrite HTsq. cbn [bind]. unfold fmul. rewrite HTo. cbn [bind]. eauto.
Qed.

(** X13.  Sizing parameters in the usual range cannot fault.  For a
    [T_out_design] between -1000 and 1000 and either a unit count of
    magnitude up to [2 ^ 53], or no unit count and an area and a heat
    index of magnitude up to [10 ^ 7], each an integer or a float, the
    design capacity and the coefficient are computed without an exception;
    the method is the unit-count method whenever a unit count is given. *)
Theorem usual_sizing_returns T_out n_units area q_H :
  num_between (-1000) 1000 T_out = true ->
  match n_units with
  | Some n => num_between (- 2 ^ 53) (2 ^ 53) n = true
  | None =>
      match area, q_H with
      | Some ar, Some q =>
          num_between (- 10 ^ 7) (10 ^ 7) ar = true /\
          num_between (- 10 ^ 7) (10 ^ 7) q = true
      | _, _ => False
      end
  end ->
  exists P Kc,
    P_hmax_design T_out = Ok P /\
    heat_transfer_K P n_units area q_H
      = Ok (Kc, match n_units with Some _ => UnitCount | None => AreaIndex end).
Proof.
  intros HT Hs. destruct (P_hmax_design_returns T_out HT) as (P & HP).
  exists P. unfold heat_transfer_K, mulf, divf.
  destruct n_units as [n|].
  - destruct (num_between_to_float (- 2 ^ 53) (2 ^ 53) n ltac:(apply Z.leb_le; reflexivity) ltac:(apply Z.leb_le; reflexivity) Hs)
      as (fn & Hfn).
    rewrite Hfn. cbn [bind]. rewrite fdiv_delta_T_max_Ok. cbn [bind]. eauto.
  - destruct area as [ar|]; [|contradiction].
    destruct q_H as [q|]; [|contradiction]. destruct Hs as [Ha Hq].
    assert (Haq : exists faq, (aq <- mul ar q ;; to_float aq) = Ok faq).
    { destruct (num_between_to_float (- 10 ^ 7) (10 ^ 7) ar ltac:(apply Z.leb_le; reflexivity) ltac:(apply Z.leb_le; reflexivity) Ha)
        as (fa & Hfa).
      destruct (num_between_to_float (- 10 ^ 7) (10 ^ 7) q ltac:(apply Z.leb_le; reflexivity) ltac:(apply Z.leb_le; reflexivity) Hq)
        as (fq & Hfq).
      destruct ar as [za|xa], q as [zq|xq]; cbn [mul];
        try (rewrite Hfa, Hfq; cbn; eauto; fail).
      cbn [bind to_float]. cbn [num_between] in Ha, Hq.
      apply Bool.andb_true_iff in Ha as [Ha1 Ha2].
      apply Bool.andb_true_iff in Hq as [Hq1 Hq2].
      apply Z.leb_le in Ha1, Ha2, Hq1, Hq2.
      destruct (float_of_int_small (za * zq)) as (f & Hf & _); [|eauto].
      assert (Z.abs (za * zq) <= 10 ^ 7 * 10 ^ 7)%Z.
      { rewrite Z.abs_mul. apply Z.mul_le_mono_nonneg; lia. }
      assert (10 ^ 7 * 10 ^ 7 <= 2 ^ 53)%Z by (apply Z.leb_le; reflexivity).
      lia. }
    destruct Haq as (faq & Haq).
    destruct (mul ar q) as [aq|e]; [|discriminate]. cbn [bind] in *.
    rewrite Haq. cbn [bind]. change (is_zero 1000) with false.
    unfold fdiv at 1. change (is_zero 1000) with false. cbn [bind].
    rewrite fdiv_delta_T_max_Ok. cbn [bind]. eauto.
Qed.

Lemma usual_sizing_returns_witness :
  exists P Kc,
    P_hmax_design T_out_design_default = Ok P /\
    heat_transfer_K P None (Some (Int 67000)) (Some (Int 25)) = Ok (Kc, AreaIndex).
Proof.
  apply (usual_sizing_returns T_out_design_default None
           (Some (Int 67000)) (Some (Int 25))); [reflexivity|].
  split; reflexivity.
Defined.

End UsualSizing.

(** ** Quotients that are numbers *)

Section QuotientSign.







Local Open Scope float_scope.


End QuotientSign.

(** ** Positive sums and bounded products *)

Section PositiveSums.



Local Open Scope float_scope.






End PositiveSums.

(** ** When the SCOP is a number *)

Section DefinedScop.


Local Open Scope float_scope.









End DefinedScop.

Section DefinedScopSeason.

Local Open Scope float_scope.






End DefinedScopSeason.

